(** * aoeu/audio, [clip.go]: multi-channel 16-bit audio clips.

    A shallow embedding of the [Clip] type and of its operations, together
    with the properties of the natural-language specification that were
    checked against them.

    Go slices are triples (pointer, length, capacity) passed by value, and
    several operations of [clip.go] depend on that: [mix] appends to a slice
    it received as an argument, [Slice] returns windows on the storage of its
    receiver, [append] writes in place when the capacity allows.  The model
    therefore keeps the backing arrays of the [[]int16] channels in an
    explicit store and represents a channel by its header. *)

From stdpp Require Import base list strings pretty.
From Stdlib Require Import ZArith Lia.

(** ** Fixed-width integers *)

(** Conversion of an integer to [int16] / [int32]: Go keeps the low bits. *)
Definition wrap16 (z : Z) : Z := ((z + 32768) mod 65536 - 32768)%Z.
Definition wrap32 (z : Z) : Z :=
  ((z + 2147483648) mod 4294967296 - 2147483648)%Z.

(** [MaxInt16 = int16(^uint16(0) >> 1)], [MinInt16 = -MaxInt16 - 1]. *)
Definition MaxInt16 : Z := wrap16 (Z.shiftr (Z.lxor 0 65535) 1).
Definition MinInt16 : Z := wrap16 (- MaxInt16 - 1).

(** ** The store of backing arrays *)

(** One entry per allocated [int16] array; an array is named by its
    position.  Arrays are never freed and never change size. *)
Abbreviation heap := (list (list Z)).

(** A slice header: backing array, offset of element 0 in it, length and
    capacity. *)
Record slice := mkSlice { arr : nat; off : nat; len : nat; cap : nat }.

(** The samples visible through a header. *)
Definition view (h : heap) (s : slice) : list Z :=
  take (len s) (drop (off s) (default [] (h !! arr s))).

(** Run-time panics of the Go runtime that [clip.go] can raise. [BadPointer]
    is raised by the model only, on a header that points outside the
    store. *)
Inductive panic :=
| IndexOutOfRange
| SliceBoundsOutOfRange
| DivideByZero
| MakeLenOutOfRange
| BadPointer.

(** The result of running a piece of code from a store: it returns a value
    and leaves a store, or it panics. *)
Inductive outcome (A : Type) : Type :=
| Return (a : A) (h : heap)
| Panic (p : panic).
Arguments Return {A} a h.
Arguments Panic {A} p.

Definition M (A : Type) : Type := heap → outcome A.

Definition ret {A} (a : A) : M A := λ h, Return a h.
Definition throw {A} (p : panic) : M A := λ _, Panic p.
Definition bind {A B} (m : M A) (k : A → M B) : M B :=
  λ h, match m h with
       | Return a h' => k a h'
       | Panic p => Panic p
       end.

Notation "'let!' x ':=' m 'in' k" := (bind m (λ x, k))
  (at level 10, x name, m at level 100, k at level 200, only parsing).
Notation "'let!' ' p ':=' m 'in' k" := (bind m (λ x, match x with p => k end))
  (at level 10, p pattern, m at level 100, k at level 200, only parsing).

(** A Go [error] value: [None] is [nil], [Some msg] is [errors.New(msg)]. *)
Definition error := option string.
Definition errors_New (msg : string) : error := Some msg.

(** ** Slice primitives *)

Definition in_range (i : Z) (n : nat) : bool :=
  (0 <=? i)%Z && (i <? Z.of_nat n)%Z.

(** [s[i]] as an expression. *)
Definition load (s : slice) (i : Z) : M Z := λ h,
  if in_range i (len s) then
    match h !! arr s ≫= (.!! (off s + Z.to_nat i)) with
    | Some v => Return v h
    | None => Panic BadPointer
    end
  else Panic IndexOutOfRange.

(** [s[i] = v]. *)
Definition store (s : slice) (i : Z) (v : Z) : M unit := λ h,
  if in_range i (len s) then
    Return tt (alter (<[off s + Z.to_nat i := v]>) (arr s) h)
  else Panic IndexOutOfRange.

(** [make([]int16, n)]: a fresh zeroed array.

    The store of the model has no size: [make] fails here, and in
    [make_chans] and [make_clips] below, on a negative length only.  The Go
    runtime refuses in addition a length whose storage would exceed its
    allocation limit, a number that depends on the platform and the release
    (and it aborts when memory runs out).  The lengths [mix], [Stretch] and
    [Slice] pass are lengths of slices that exist, or differences of such,
    and stay below that limit.  [NewClip] and [Split] pass on a number of
    their caller: the properties stated below of their successful returns
    carry the bound 32767 on that number, which no runtime refuses; the
    lemmas that lead there describe the model as it is. *)
Definition make_int16 (n : Z) : M slice := λ h,
  if (n <? 0)%Z then Panic MakeLenOutOfRange
  else Return (mkSlice (length h) 0 (Z.to_nat n) (Z.to_nat n))
              (h ++ [replicate (Z.to_nat n) 0%Z]).

(** [s[lo:hi]]: a window on the same array; Go checks
    [0 <= lo <= hi <= cap(s)]. *)
Definition reslice (s : slice) (lo hi : Z) : M slice :=
  if (0 <=? lo)%Z && (lo <=? hi)%Z && (hi <=? Z.of_nat (cap s))%Z then
    ret (mkSlice (arr s) (off s + Z.to_nat lo) (Z.to_nat (hi - lo))
                 (cap s - Z.to_nat lo))
  else throw SliceBoundsOutOfRange.

(** Indexing the outer slice [c.Samples], a [[][]int16].  The array of
    headers behind [c.Samples] is kept by value in the clip: each clip owns
    its array of headers. *)
Definition chan (l : list slice) (i : Z) : M slice :=
  if in_range i (length l) then
    match l !! Z.to_nat i with
    | Some s => ret s
    | None => throw IndexOutOfRange
    end
  else throw IndexOutOfRange.

Definition set_chan (l : list slice) (i : Z) (s : slice) : M (list slice) :=
  if in_range i (length l) then ret (<[Z.to_nat i := s]> l)
  else throw IndexOutOfRange.

(** [for i := lo; i < lo + n; i++ { st = body i st }]. *)
Fixpoint for_up {S} (n : nat) (i : Z) (body : Z → S → M S) (st : S) : M S :=
  match n with
  | O => ret st
  | S n' => let! st' := body i st in for_up n' (i + 1)%Z body st'
  end.

(** [for i := lo + n - 1; i >= lo; i-- { st = body i st }], with [lo = 0]
    below: [n] counts the iterations that remain and the index of the
    current one is [n - 1]. *)
Fixpoint for_down {S} (n : nat) (body : Z → S → M S) (st : S) : M S :=
  match n with
  | O => ret st
  | S n' => let! st' := body (Z.of_nat n') st in for_down n' body st'
  end.

(** [for i, x := range xs { st = body i x st }] over a sequence held by
    value. *)
Fixpoint for_range {A S} (xs : list A) (i : Z) (body : Z → A → S → M S)
    (st : S) : M S :=
  match xs with
  | [] => ret st
  | x :: xs' => let! st' := body i x st in for_range xs' (i + 1)%Z body st'
  end.

(** [for i := lo; i < lo + n; i++ { ... }] whose body may [return]: the
    body yields [Some r] when it returns [r] from the enclosing function and
    [None] when it reaches its end. *)
Fixpoint for_until {R} (n : nat) (i : Z) (body : Z → M (option R))
    : M (option R) :=
  match n with
  | O => ret None
  | S n' =>
    let! r := body i in
    match r with
    | Some x => ret (Some x)
    | None => for_until n' (i + 1)%Z body
    end
  end.

(** The verb [%d] of [fmt]: an integer in decimal. *)
Definition fmt_d (z : Z) : string := pretty z.

(** The line feed that ends the messages of [IsEqual]. *)
Definition newline : string := String (Ascii.ascii_of_nat 10) EmptyString.

(** [strings.Contains(s, substr)]. *)
Fixpoint strings_Contains (s substr : string) : bool :=
  String.prefix substr s ||
  match s with
  | EmptyString => false
  | String _ s' => strings_Contains s' substr
  end.

(** ** The container boundary *)

Module wave.

(** Modelled from the spec: the container type [wave.File] of the package
    [encoding/wave], whose declaration is not among these sources.  It
    exposes an identifier, a header with a channel count and a sample rate,
    and the flat sequence of samples in round-robin interleaved order.  The
    conversions [int16(...)] and [int32(...)] at the assignments in
    [NewWaveFromClip] fix the types of the two header fields; the samples
    are kept by value, the storage of a file being shared with no clip. *)
Record header := mkHeader {
  NumChannels : Z;   (* int16 *)
  SampleRate : Z;    (* int32 *)
}.

Record File := mkFile {
  FileName : string;
  Header : header;
  Samples : list Z;
}.

(** Modelled from the spec: [wave.NewFile] yields a container with the given
    identifier and no samples yet. *)
Definition NewFile (fileName : string) : File :=
  mkFile fileName (mkHeader 0 0) [].

(** Modelled from the spec: [UpdateHeader] finalizes the length-derived
    header fields, none of which is a field of this record. *)
Definition UpdateHeader (w : File) : File := w.

Definition set_NumChannels (w : File) (n : Z) : File :=
  mkFile (FileName w) (mkHeader n (SampleRate (Header w))) (Samples w).
Definition set_SampleRate (w : File) (r : Z) : File :=
  mkFile (FileName w) (mkHeader (NumChannels (Header w)) r) (Samples w).
Definition set_Samples (w : File) (l : list Z) : File :=
  mkFile (FileName w) (Header w) l.

End wave.

Section Clip.

(** The capacity [append] picks when it has to reallocate is a matter of the
    Go runtime (old capacity, needed length ↦ new capacity); it is at least
    the needed length. *)
Variable growslice : nat → nat → nat.

(** [append(s, xs...)].  When the capacity suffices the elements are written
    behind the length in the array of [s], otherwise the contents move to a
    fresh array.  The result is the new header; [s] itself is a value and
    does not change. *)
Definition append (s : slice) (xs : list Z) : M slice := λ h,
  let n := len s + length xs in
  if n <=? cap s then
    Return (mkSlice (arr s) (off s) n (cap s))
           (alter (list_inserts (off s + len s) xs) (arr s) h)
  else
    let c := n `max` growslice (cap s) n in
    Return (mkSlice (length h) 0 n c)
           (h ++ [view h s ++ xs ++ replicate (c - n) 0%Z]).

(** [append(s, t...)] for a slice [t]: the elements of [t] are read first. *)
Definition append_slice (s t : slice) : M slice := λ h, append s (view h t) h.

(** ** Clips *)

Record Clip := mkClip {
  Samples : list slice;   (* channels of samples, non interlaced *)
  Name : string;
  SampleRate : Z;         (* a Go [int], 64 bits wide on the usual targets;
                             the model does not bound it *)
}.

Definition set_Samples (c : Clip) (l : list slice) : Clip :=
  mkClip l (Name c) (SampleRate c).
Definition set_SampleRate (c : Clip) (r : Z) : Clip :=
  mkClip (Samples c) (Name c) r.
Definition set_Name (c : Clip) (n : string) : Clip :=
  mkClip (Samples c) n (SampleRate c).

(** [new(Clip)]. *)
Definition new_Clip : Clip := mkClip [] "" 0.

(** [make([][]int16, n)]: [n] nil headers.  As for [make_int16], the upper
    limit the runtime puts on [n] is not represented. *)
Definition make_chans (n : Z) : M (list slice) :=
  if (n <? 0)%Z then throw MakeLenOutOfRange
  else ret (replicate (Z.to_nat n) (mkSlice 0 0 0 0)).

Definition NewClip (numChannels : Z) : M Clip :=
  let c := new_Clip in
  let! l := make_chans numChannels in
  let c := set_Samples c l in
  for_up (Z.to_nat numChannels) 0 (λ i c,
    let! s := make_int16 0 in
    let! l := set_chan (Samples c) i s in
    ret (set_Samples c l)) c.

(** Modelled from the spec: [wave.OpenFile] either fails or hands over a
    fully materialized header and flat sample sequence. *)
Variable wave_OpenFile : string → wave.File * error.

Definition NewClipFromWave (waveFileName : string) : M (Clip * error) :=
  let c := new_Clip in
  let '(w, err) := wave_OpenFile waveFileName in
  match err with
  | Some _ => ret (c, err)
  | None =>
    let c := set_Name c (wave.FileName w) in
    let numChannels := wave.NumChannels (wave.Header w) in
    let! c := NewClip (wave.NumChannels (wave.Header w)) in
    let c := set_SampleRate c (wave.SampleRate (wave.Header w)) in
    (* Deinterlace the wave sample data into disparate slices. *)
    let! c := for_range (wave.Samples w) 0 (λ i sample c,
      if (numChannels =? 0)%Z then throw DivideByZero else
      let j := Z.rem i numChannels in
      let! ch := chan (Samples c) j in
      let! ch := append ch [sample] in
      let! l := set_chan (Samples c) j ch in
      ret (set_Samples c l)) c in
    ret (c, None)
  end.

Definition NewWaveFromClip (c : Clip) : M wave.File :=
  let fileName := Name c in
  let fileName :=
    if negb (strings_Contains fileName ".wav") then fileName +:+ ".wav"
    else fileName in
  let w := wave.NewFile fileName in
  let w := wave.set_NumChannels w (wrap16 (Z.of_nat (length (Samples c)))) in
  let w := wave.set_SampleRate w (wrap32 (SampleRate c)) in
  (* Interlace the slices of samples into a single slice. *)
  let! s0 := chan (Samples c) 0 in
  let! w := for_up (len s0) 0 (λ offset w,
    for_up (length (Samples c)) 0 (λ chanNum w,
      let! ch := chan (Samples c) chanNum in
      let! x := load ch offset in
      ret (wave.set_Samples w (wave.Samples w ++ [x]))) w) w in
  ret (wave.UpdateHeader w).

Definition LenPerChannel (c : Clip) : M Z :=
  let! s0 := chan (Samples c) 0 in
  ret (Z.of_nat (len s0)).

(** The [float32] arithmetic of [Duration], from the number of samples per
    channel and the sample rate to nanoseconds, is left abstract. *)
Variable float_nanos : Z → Z → Z.

Definition Duration (c : Clip) : M Z :=
  let! n := LenPerChannel c in
  ret (float_nanos n (SampleRate c)).

(** The error built by [Append] and [Mix] when the channel counts differ;
    the specification calls its kind ChannelMismatch. *)
Definition ChannelMismatch : error :=
  errors_New "Clips have varying number of channels.".

(** [target.Append(source)]; the clip returned is the receiver as the call
    leaves it.  Iteration [chanNum] reads and writes header [chanNum] only,
    so that reading the headers of [source] before the loop is exact also
    when both are the same clip. *)
Definition Append (target source : Clip) : M (Clip * error) :=
  if negb (length (Samples target) =? length (Samples source)) then
    ret (target, ChannelMismatch)
  else
    let! target := for_up (length (Samples target)) 0 (λ chanNum target,
      let! t := chan (Samples target) chanNum in
      let! s := chan (Samples source) chanNum in
      let! t := append_slice t s in
      let! l := set_chan (Samples target) chanNum t in
      ret (set_Samples target l)) target in
    ret (target, None).

(** The value stored by [mix] from [sample] (of [t]) and [sample2] (of
    [s]). *)
Definition mixed_sample (sample sample2 : Z) : Z :=
  let mixed := wrap16 (sample + sample2) in
  if (0 <? sample2)%Z && (mixed <? sample)%Z then MaxInt16
  else if (sample2 <? 0)%Z && (sample <? mixed)%Z then MinInt16
  else mixed.

(** [mix(s, t)].  The parameter [s] is a header of its own: the assignment
    [s = append(...)] changes it and not the header the caller holds. *)
Definition mix (s t : slice) : M unit :=
  let! s :=
    if len s <? len t then
      let diffLen := (Z.of_nat (len t) - Z.of_nat (len s))%Z in
      let! z := make_int16 diffLen in
      append_slice s z
    else ret s in
  for_up (len t) 0 (λ i _,
    let! sample := load t i in
    let! sample2 := load s i in
    store s i (mixed_sample sample sample2)) tt.

(** [s.Mix(t)].  No header of [s.Samples] is assigned: after the call the
    channels of the receiver are the headers of [s], read in the store the
    call leaves. *)
Definition Mix (s t : Clip) : M error :=
  if negb (length (Samples s) =? length (Samples t)) then
    ret ChannelMismatch
  else
    let! _ := for_up (length (Samples s)) 0 (λ chanNum _,
      let! a := chan (Samples s) chanNum in
      let! b := chan (Samples t) chanNum in
      mix a b) tt in
    ret None.

Definition Slice (s : Clip) (startIndex endIndex : Z) : M (Clip * error) :=
  let! t := NewClip (Z.of_nat (length (Samples s))) in
  let! s0 := chan (Samples s) 0 in
  let endIndex :=
    if (Z.of_nat (len s0) <? endIndex)%Z then Z.of_nat (len s0)
    else endIndex in
  let! t := for_up (length (Samples s)) 0 (λ chanNum t,
    let! ch := chan (Samples s) chanNum in
    let! ch := reslice ch startIndex endIndex in
    let! l := set_chan (Samples t) chanNum ch in
    ret (set_Samples t l)) t in
  ret (t, None).

(** [make([]*Clip, n)]: [n] nil pointers.  As for [make_int16], the upper
    limit the runtime puts on [n] is not represented. *)
Definition make_clips (n : Z) : M (list (option Clip)) :=
  if (n <? 0)%Z then throw MakeLenOutOfRange
  else ret (replicate (Z.to_nat n) None).

(** The loop of [Split], which returns from inside its body. *)
Fixpoint Split_loop (n : nat) (i : Z) (c : Clip) (stepLen : Z)
    (subSamples : list (option Clip)) : M (list (option Clip) * error) :=
  match n with
  | O => ret (subSamples, None)
  | S n' =>
    let start := (stepLen * i)%Z in
    let end_ := (start + stepLen)%Z in
    let! '(t, err) := Slice c start end_ in
    if in_range i (length subSamples) then
      let subSamples := <[Z.to_nat i := Some t]> subSamples in
      match err with
      | Some _ => ret (subSamples, err)
      | None => Split_loop n' (i + 1)%Z c stepLen subSamples
      end
    else throw IndexOutOfRange
  end.

Definition Split (c : Clip) (numDivisions : Z)
    : M (list (option Clip) * error) :=
  let! s0 := chan (Samples c) 0 in
  if (numDivisions =? 0)%Z then throw DivideByZero else
  let stepLen := (Z.of_nat (len s0) ÷ numDivisions)%Z in
  let! subSamples := make_clips numDivisions in
  Split_loop (Z.to_nat numDivisions) 0 c stepLen subSamples.

(** [c.Stretch()]; the clip returned is the receiver as the call leaves
    it. *)
Definition Stretch (c : Clip) : M Clip :=
  let! s0 := chan (Samples c) 0 in
  let sampleLen := Z.of_nat (len s0) in
  for_up (length (Samples c)) 0 (λ chanNum c,
    let! ch := chan (Samples c) chanNum in
    let! z := make_int16 sampleLen in
    let! ch := append_slice ch z in
    let! l := set_chan (Samples c) chanNum ch in
    let c := set_Samples c l in
    let! s0 := chan (Samples c) 0 in
    for_down (S (len s0)) (λ i c,
      let! ch := chan (Samples c) chanNum in
      let! v := load ch i in
      let! _ := store ch (i * 2) v in
      let! _ := store ch i 0 in
      ret c) c) c.

(** The three errors [IsEqual] builds with [fmt.Errorf]. *)
Definition varying_channels (n1 n2 : Z) : error :=
  Some ("Clips have varying number of channnels: " +:+
        fmt_d n1 +:+ ", $" +:+ fmt_d n2 +:+ newline).
Definition varying_samples (n1 n2 chanNum : Z) : error :=
  Some ("Clips have varying number of samples (" +:+
        fmt_d n1 +:+ " and " +:+ fmt_d n2 +:+ ") for channel " +:+
        fmt_d chanNum +:+ newline).
Definition varying_values (sample sample2 i chanNum : Z) : error :=
  Some ("Clips have varying sample values (" +:+
        fmt_d sample +:+ " and " +:+ fmt_d sample2 +:+ ") at offset " +:+
        fmt_d i +:+ " on channel " +:+ fmt_d chanNum +:+ newline).

Definition IsEqual (s t : Clip) : M (bool * error) :=
  if negb (length (Samples s) =? length (Samples t)) then
    ret (false, varying_channels (Z.of_nat (length (Samples s)))
                                 (Z.of_nat (length (Samples t))))
  else
    let! r := for_until (length (Samples s)) 0 (λ chanNum,
      let! a := chan (Samples s) chanNum in
      let! b := chan (Samples t) chanNum in
      if negb (len a =? len b) then
        ret (Some (false, varying_samples (Z.of_nat (len a))
                                          (Z.of_nat (len b)) chanNum))
      else
        for_until (len a) 0 (λ i,
          let! sample := load a i in
          let! b := chan (Samples t) chanNum in
          let! sample2 := load b i in
          if negb (sample =? sample2)%Z then
            ret (Some (false, varying_values sample sample2 i chanNum))
          else ret None)) in
    match r with
    | Some x => ret x
    | None => ret (true, None)
    end.

(** The inner loop of [Reverse]:
    [for i, j := 0, len-1; i < j; i, j = i+1, j-1].  Every iteration brings
    [i] and [j] closer by two, so that [fuel = len] iterations are more than
    the loop can make. *)
Fixpoint Reverse_loop (fuel : nat) (i j : Z) (ch : slice) : M unit :=
  match fuel with
  | O => ret tt
  | S fuel' =>
    if (i <? j)%Z then
      let! tmp := load ch i in
      let! x := load ch j in
      let! _ := store ch i x in
      let! _ := store ch j tmp in
      Reverse_loop fuel' (i + 1)%Z (j - 1)%Z ch
    else ret tt
  end.

(** [c.Reverse()].  No header of [c.Samples] is assigned. *)
Definition Reverse (c : Clip) : M unit :=
  for_up (length (Samples c)) 0 (λ chanNum _,
    let! ch := chan (Samples c) chanNum in
    Reverse_loop (len ch) 0 (Z.of_nat (len ch) - 1)%Z ch) tt.

End Clip.

(** ** Predicates on stores and headers *)

(** A header is well formed in a store when its window of [cap] cells lies
    inside an allocated array. *)
Definition slice_ok (h : heap) (s : slice) : Prop :=
  len s ≤ cap s ∧ ∃ a, h !! arr s = Some a ∧ off s + cap s ≤ length a.

(** [h'] is a later store than [h]: the arrays of [h] are still there, with
    the sizes they had. *)
Definition heap_le (h h' : heap) : Prop :=
  ∀ i a, h !! i = Some a → ∃ a', h' !! i = Some a' ∧ length a' = length a.

(** Total correctness: from [h] the computation [m] returns, and the value
    and store it returns satisfy [Q]. *)
Definition returns {A} (m : M A) (h : heap) (Q : A → heap → Prop) : Prop :=
  match m h with
  | Return a h' => Q a h'
  | Panic _ => False
  end.

(** The channels of a clip as sequences of samples. *)
Definition channels (h : heap) (c : Clip) : list (list Z) :=
  view h <$> Samples c.

(** Channels that live in pairwise distinct arrays of the store. *)
Definition chans_ok (h : heap) (l : list slice) : Prop :=
  Forall (slice_ok h) l ∧ NoDup (arr <$> l).

(** The headers [NewClip] hands out from a store of [base] arrays: channel
    [i] gets the empty array number [base + i]. *)
Definition fresh_chans (base n : nat) : list slice :=
  (λ i, mkSlice (base + i) 0 0 0) <$> seq 0 n.

(** The header of [s[lo : lo+n]]. *)
Definition window (lo n : nat) (s : slice) : slice :=
  mkSlice (arr s) (off s + lo) n (cap s - lo).

(** Division [i] of a clip cut in steps of [step] samples. *)
Definition segment (c : Clip) (step i : nat) : Clip :=
  mkClip (window (step * i) step <$> Samples c) "" 0.

(** The first channel of a clip as a sequence of samples. *)
Definition channel0 (h : heap) (c : Clip) : list Z :=
  default [] (head (channels h c)).

(** The samples of a flat sequence at the indices congruent to [c] modulo
    [n], in the order they have in the sequence. *)
Definition samples_mod (n c : nat) (flat : list Z) : list Z :=
  (filter (λ p : nat * Z, p.1 `mod` n = c) (imap pair flat)).*2.

(** The same selection by recursion, [i] being the index of the head. *)
Fixpoint pick (n c i : nat) (l : list Z) : list Z :=
  match l with
  | [] => []
  | x :: l' =>
    if decide (i `mod` n = c) then x :: pick n c (S i) l'
    else pick n c (S i) l'
  end.

(** Round-robin interleaving of channels of [L] samples: for each offset in
    turn, the sample at that offset of every channel, in channel order. *)
Definition row (chans : list (list Z)) (o : nat) : list Z :=
  (λ ch, default 0%Z (ch !! o)) <$> chans.
Definition interleave (chans : list (list Z)) (L : nat) : list Z :=
  concat (row chans <$> seq 0 L).

(** What [mix] leaves in a first operand of capacity [cap_s] holding [vs]
    when the second operand holds [vt]: the mixed samples at the positions
    both have, followed by the rest of [vs], when [vt] fits the capacity;
    [vs] as it was when it does not. *)
Definition mixed_channel (cap_s : nat) (vs vt : list Z) : list Z :=
  if length vt <=? cap_s then
    zip_with mixed_sample vt vs ++ drop (length vt) vs
  else vs.

(** ** Loop invariants *)

(** What holds before iteration [k] of the loop of [Append]. *)
Definition Append_inv (target source : Clip) (h : heap) (k : nat)
    (tk : Clip) (hk : heap) : Prop :=
  heap_le h hk ∧ chans_ok hk (Samples tk) ∧
  length (Samples tk) = length (Samples target) ∧
  view hk <$> Samples tk =
    zip_with (++) (take k (channels h target)) (take k (channels h source))
    ++ drop k (channels h target) ∧
  (∀ u, u ∈ Samples source → hk !! arr u = h !! arr u) ∧
  (∀ u, u ∈ Samples tk →
     arr u ∈ arr <$> Samples target ∨ length h ≤ arr u).

(** What holds after [k] samples of the container have been distributed. *)
Definition deinterlace_inv (h : heap) (flat : list Z) (rate : Z) (N : nat)
    (k : nat) (c : Clip) (hk : heap) : Prop :=
  Name c = "" ∧ SampleRate c = rate ∧ length (Samples c) = N ∧
  chans_ok hk (Samples c) ∧
  channels hk c = (λ ch, samples_mod N ch (take k flat)) <$> seq 0 N ∧
  (∀ i, i < length h → hk !! i = h !! i) ∧
  (∀ u, u ∈ Samples c → length h ≤ arr u) ∧
  length h ≤ length hk.

(** ** Concrete stores and clips used by the examples below *)

(** A runtime that reallocates to exactly the needed capacity. *)
Definition exact_fit : nat → nat → nat := λ _ need, need.

(** Two mono clips built from slice literals, [[][]int16{{1}}] and
    [[][]int16{{1, 2}}]: a literal has as much capacity as length. *)
Definition short_long_store : heap := [[1]; [1; 2]]%Z.
Definition short_clip : Clip := mkClip [mkSlice 0 0 1 1] "s" 8.
Definition long_clip : Clip := mkClip [mkSlice 1 0 2 2] "t" 8.

(** [[][]int16{{5}}] and [[][]int16{{32767, 0}}]. *)
Definition loud_store : heap := [[5]; [32767; 0]]%Z.
Definition quiet_clip : Clip := mkClip [mkSlice 0 0 1 1] "s" 8.
Definition loud_clip : Clip := mkClip [mkSlice 1 0 2 2] "t" 8.

(** A mono clip of one sample whose sample rate, an [int], does not fit
    the [int32] of the container header. *)
Definition fast_store : heap := [[7]]%Z.
Definition fast_clip : Clip := mkClip [mkSlice 0 0 1 1] "fast" 4294967297.

(** A clip of 32768 channels of one sample each, one array per channel. *)
Definition wide_store : heap := replicate (Z.to_nat 32768) [7%Z].
Definition wide_clip : Clip :=
  mkClip ((λ i, mkSlice i 0 1 1) <$> seq 0 (Z.to_nat 32768)) "wide" 8.

(** A container with the identifier [a.wav], one channel and one sample. *)
Definition a_wav : wave.File :=
  wave.mkFile "a.wav" (wave.mkHeader 1 8) [7%Z].

(** A stereo clip of four samples per channel, and its encoding. *)
Definition stereo_store : heap := [[1; 2; 3; 4]; [10; 20; 30; 40]]%Z.
Definition stereo_clip : Clip :=
  mkClip [mkSlice 0 0 4 4; mkSlice 1 0 4 4] "stereo" 8.
Definition stereo_wav : wave.File :=
  wave.mkFile "stereo.wav" (wave.mkHeader 2 8)
    [1; 10; 2; 20; 3; 30; 4; 40]%Z.

(** A container boundary that hands over the given file under any name. *)
Definition opens (w : wave.File) : string → wave.File * error :=
  λ _, (w, None).

(** A mono clip of four samples, [[][]int16{{1, 2, 3, 4}}]. *)
Definition whole_store : heap := [[1; 2; 3; 4]]%Z.
Definition whole_clip : Clip := mkClip [mkSlice 0 0 4 4] "whole" 8.

(** The stereo clip and a copy of it in arrays of its own. *)
Definition stereo_pair_store : heap :=
  [[1; 2; 3; 4]; [10; 20; 30; 40]; [1; 2; 3; 4]; [10; 20; 30; 40]]%Z.
Definition stereo_copy : Clip :=
  mkClip [mkSlice 2 0 4 4; mkSlice 3 0 4 4] "copy" 8.

(** The stereo clip and a clip of two silent channels, the second of them
    longer than a channel of the stereo clip. *)
Definition stereo_silence_store : heap :=
  [[1; 2; 3; 4]; [10; 20; 30; 40]; [0; 0]; [0; 0; 0; 0; 0; 0]]%Z.
Definition silent_clip : Clip :=
  mkClip [mkSlice 2 0 2 2; mkSlice 3 0 6 6] "silence" 8.

(** A container boundary at which every file fails to open. *)
Definition fails : string → wave.File * error :=
  λ _, (wave.NewFile "", errors_New "no such file").

(** A container with a channel count of zero. *)
Definition no_channels_wav : wave.File :=
  wave.mkFile "none.wav" (wave.mkHeader 0 8) [7%Z].

(** A clip without channels, and a clip whose second channel is empty. *)
Definition empty_clip : Clip := mkClip [] "" 0.
Definition ragged_store : heap := [[1; 2]; []]%Z.
Definition ragged_clip : Clip :=
  mkClip [mkSlice 0 0 2 2; mkSlice 1 0 0 0] "ragged" 8.

(** ** Reasoning about computations *)

Lemma returns_ret {A} (a : A) h Q : Q a h → returns (ret a) h Q.
Proof. done. Qed.

Lemma returns_bind {A B} (m : M A) (k : A → M B) h Q :
  returns m h (λ a h', returns (k a) h' Q) → returns (bind m k) h Q.
Proof. unfold returns, bind. by destruct (m h). Qed.

Lemma returns_mono {A} (m : M A) h (Q Q' : A → heap → Prop) :
  returns m h Q → (∀ a h', Q a h' → Q' a h') → returns m h Q'.
Proof. unfold returns. destruct (m h); [eauto | done]. Qed.

Lemma returns_inv {A} (m : M A) h Q :
  returns m h Q → ∃ a h', m h = Return a h' ∧ Q a h'.
Proof. unfold returns. destruct (m h); [eauto | done]. Qed.

Lemma returns_eq {A} (m : M A) h a h' (Q : A → heap → Prop) :
  m h = Return a h' → Q a h' → returns m h Q.
Proof. unfold returns. by intros ->. Qed.

Lemma bind_Return {A B} (m : M A) (k : A → M B) h a h' :
  m h = Return a h' → bind m k h = k a h'.
Proof. unfold bind. by intros ->. Qed.

Lemma bind_Panic {A B} (m : M A) (k : A → M B) h p :
  m h = Panic p → bind m k h = Panic p.
Proof. unfold bind. by intros ->. Qed.

(** The rule of the counting loop: [I k] holds before iteration [k]. *)
Lemma for_up_inv {S} (I : nat → S → heap → Prop) n i0 body (st : S) h :
  I 0 st h →
  (∀ k st h, k < n → I k st h →
     returns (body (i0 + Z.of_nat k)%Z st) h (I (Datatypes.S k))) →
  returns (for_up n i0 body st) h (I n).
Proof.
  revert I i0 st h. induction n as [|n IH]; intros I i0 st h H0 Hstep.
  - by apply returns_ret.
  - simpl. apply returns_bind.
    eapply returns_mono.
    { specialize (Hstep 0 st h). rewrite Z.add_0_r in Hstep.
      apply Hstep; [lia | done]. }
    intros st' h' H1.
    apply (IH (λ k, I (Datatypes.S k))); [done |].
    intros k st'' h'' Hk HI.
    replace (i0 + 1 + Z.of_nat k)%Z with (i0 + Z.of_nat (Datatypes.S k))%Z by lia.
    apply Hstep; [lia | done].
Qed.

Lemma for_range_inv {A S} (I : nat → S → heap → Prop) (xs : list A) i0 body
    (st : S) h :
  I 0 st h →
  (∀ k x st h, xs !! k = Some x → I k st h →
     returns (body (i0 + Z.of_nat k)%Z x st) h (I (Datatypes.S k))) →
  returns (for_range xs i0 body st) h (I (length xs)).
Proof.
  revert I i0 st h. induction xs as [|x xs IH]; intros I i0 st h H0 Hstep.
  - by apply returns_ret.
  - simpl. apply returns_bind.
    eapply returns_mono.
    { specialize (Hstep 0 x st h). rewrite Z.add_0_r in Hstep.
      apply Hstep; done. }
    intros st' h' H1.
    apply (IH (λ k, I (Datatypes.S k))); [done |].
    intros k y st'' h'' Hk HI.
    replace (i0 + 1 + Z.of_nat k)%Z with (i0 + Z.of_nat (Datatypes.S k))%Z by lia.
    apply Hstep; done.
Qed.

(** ** Stores and headers *)

Lemma heap_le_refl h : heap_le h h.
Proof. intros i a Hi. eauto. Qed.

Lemma heap_le_trans h1 h2 h3 : heap_le h1 h2 → heap_le h2 h3 → heap_le h1 h3.
Proof.
  intros H12 H23 i a Hi.
  destruct (H12 i a Hi) as (a2 & Hi2 & Hl2).
  destruct (H23 i a2 Hi2) as (a3 & Hi3 & Hl3).
  exists a3. split; [done | congruence].
Qed.

Lemma heap_le_app h l : heap_le h (h ++ l).
Proof. intros i a Hi. exists a. split; [by apply lookup_app_l_Some | done]. Qed.

Lemma heap_le_alter (f : list Z → list Z) i h :
  (∀ a, length (f a) = length a) → heap_le h (alter f i h).
Proof.
  intros Hf j a Hj. destruct (decide (i = j)) as [->|Hne].
  - exists (f a). by rewrite list_lookup_alter_eq, Hj.
  - exists a. by rewrite list_lookup_alter_ne.
Qed.

Lemma heap_le_length h h' : heap_le h h' → length h ≤ length h'.
Proof.
  intros Hle. destruct (decide (length h ≤ length h')) as [|Hn]; [done |].
  destruct (lookup_lt_is_Some_2 h (length h')) as [a Ha]; [lia |].
  destruct (Hle _ _ Ha) as (a' & Ha' & _).
  apply lookup_lt_Some in Ha'. lia.
Qed.

Lemma slice_ok_le h h' s : heap_le h h' → slice_ok h s → slice_ok h' s.
Proof.
  intros Hle (Hlc & a & Ha & Hb).
  destruct (Hle _ _ Ha) as (a' & Ha' & Hl).
  split; [done |]. exists a'. split; [done | lia].
Qed.

Lemma slice_ok_lt h s : slice_ok h s → arr s < length h.
Proof. intros (_ & a & Ha & _). by apply lookup_lt_Some in Ha. Qed.

Lemma length_view h s : slice_ok h s → length (view h s) = len s.
Proof.
  intros (Hlc & a & Ha & Hb). unfold view. rewrite Ha. simpl.
  rewrite length_take, length_drop. lia.
Qed.

Lemma view_frame h h' s : h' !! arr s = h !! arr s → view h' s = view h s.
Proof. unfold view. by intros ->. Qed.

Lemma lookup_view h s a k :
  h !! arr s = Some a → k < len s → view h s !! k = a !! (off s + k).
Proof.
  intros Ha Hk. unfold view. rewrite Ha. simpl.
  by rewrite lookup_take_lt, lookup_drop.
Qed.

Lemma in_range_spec i n :
  in_range i n = true ↔ (0 ≤ i)%Z ∧ Z.to_nat i < n.
Proof.
  unfold in_range. rewrite andb_true_iff, Z.leb_le, Z.ltb_lt. lia.
Qed.

Lemma in_range_nat k n : k < n → in_range (Z.of_nat k) n = true.
Proof. intros. apply in_range_spec. lia. Qed.

(** *** The primitives *)

Lemma load_spec h s i :
  slice_ok h s → in_range i (len s) = true →
  ∃ v, load s i h = Return v h ∧ view h s !! Z.to_nat i = Some v.
Proof.
  intros (Hlc & a & Ha & Hb) Hi. unfold load. rewrite Hi, Ha. simpl.
  apply in_range_spec in Hi as [_ Hi].
  destruct (lookup_lt_is_Some_2 a (off s + Z.to_nat i)) as [v Hv]; [lia |].
  exists v. rewrite Hv. split; [done |].
  by rewrite (lookup_view h s a).
Qed.

Lemma store_spec h s i v :
  in_range i (len s) = true →
  store s i v h =
    Return tt (alter (<[off s + Z.to_nat i := v]>) (arr s) h).
Proof. intros Hi. unfold store. by rewrite Hi. Qed.

Lemma store_heap_le h s i v :
  heap_le h (alter (<[off s + Z.to_nat i := v]>) (arr s) h).
Proof. apply heap_le_alter. intros a. apply length_insert. Qed.

Lemma chan_spec (l : list slice) k s :
  l !! k = Some s → chan l (Z.of_nat k) = ret s.
Proof.
  intros Hk. unfold chan.
  rewrite in_range_nat by (by eapply lookup_lt_Some).
  by rewrite Nat2Z.id, Hk.
Qed.

Lemma set_chan_spec (l : list slice) k s :
  k < length l → set_chan l (Z.of_nat k) s = ret (<[k := s]> l).
Proof.
  intros Hk. unfold set_chan. rewrite in_range_nat by done.
  by rewrite Nat2Z.id.
Qed.

Lemma make_int16_spec n h :
  (0 ≤ n)%Z →
  make_int16 n h =
    Return (mkSlice (length h) 0 (Z.to_nat n) (Z.to_nat n))
           (h ++ [replicate (Z.to_nat n) 0%Z]).
Proof.
  intros Hn. unfold make_int16.
  destruct (n <? 0)%Z eqn:E; [apply Z.ltb_lt in E; lia | done].
Qed.

Lemma slice_ok_fresh h a n c :
  n ≤ c → c ≤ length a → slice_ok (h ++ [a]) (mkSlice (length h) 0 n c).
Proof.
  intros Hn Hc. split; [done |]. exists a. simpl. split; [| lia].
  by rewrite lookup_app_r, Nat.sub_diag.
Qed.

Lemma view_fresh h a n c :
  view (h ++ [a]) (mkSlice (length h) 0 n c) = take n a.
Proof.
  unfold view. simpl. by rewrite lookup_app_r, Nat.sub_diag.
Qed.

Section Append.

Variable growslice : nat → nat → nat.

(** [append] on a well-formed header returns a well-formed header whose
    contents are the old contents followed by the new elements; of the
    arrays that existed it changes at most the one of [s]. *)
Lemma append_spec s xs h :
  slice_ok h s →
  ∃ s' h', append growslice s xs h = Return s' h' ∧
    heap_le h h' ∧ slice_ok h' s' ∧
    view h' s' = view h s ++ xs ∧
    len s' = len s + length xs ∧
    (arr s' = arr s ∨ arr s' = length h) ∧
    (∀ i, i ≠ arr s → i < length h → h' !! i = h !! i).
Proof.
  intros Hok. pose proof Hok as (Hlc & a & Ha & Hb).
  unfold append. destruct (len s + length xs <=? cap s) eqn:E.
  - apply Nat.leb_le in E. eexists _, _. split; [done |].
    split; [| split; [| split; [| split; [done |split]]]].
    + apply heap_le_alter. intros ?. apply length_inserts.
    + split; [done |]. simpl. exists (list_inserts (off s + len s) xs a).
      rewrite list_lookup_alter_eq, Ha, length_inserts. done.
    + unfold view at 1. simpl. rewrite list_lookup_alter_eq, Ha. simpl.
      rewrite <- (length_view h s Hok) at 1.
      apply list_eq. intros k.
      destruct (decide (k < len s + length xs)) as [Hk|Hk].
      * rewrite lookup_take_lt, lookup_drop
          by (rewrite (length_view h s Hok); lia).
        destruct (decide (k < len s)) as [Hk'|Hk'].
        -- rewrite list_lookup_inserts_lt by lia.
           rewrite lookup_app_l by (rewrite (length_view h s Hok); lia).
           by rewrite (lookup_view h s a).
        -- rewrite list_lookup_inserts by lia.
           rewrite lookup_app_r by (rewrite (length_view h s Hok); lia).
           rewrite (length_view h s Hok). f_equal. lia.
      * rewrite lookup_take_ge
          by (rewrite (length_view h s Hok); lia).
        symmetry. apply lookup_ge_None.
        rewrite length_app, (length_view h s Hok). lia.
    + by left.
    + intros i Hi _. by rewrite list_lookup_alter_ne.
  - apply Nat.leb_gt in E. eexists _, _. split; [done |].
    split; [| split; [| split; [| split; [done |split]]]].
    + apply heap_le_app.
    + apply slice_ok_fresh; [lia |].
      rewrite !length_app, length_replicate, (length_view h s Hok). lia.
    + rewrite view_fresh.
      rewrite app_assoc, take_app_le
        by (rewrite length_app, (length_view h s Hok); lia).
      apply take_ge. rewrite length_app, (length_view h s Hok). lia.
    + by right.
    + intros i _ Hi. by apply lookup_app_l.
Qed.

End Append.

Section Properties.

Variable growslice : nat → nat → nat.
Variable wave_OpenFile : string → wave.File * error.
Variable float_nanos : Z → Z → Z.

(** [append] always returns, with a header of the summed length. *)
Lemma append_len s xs h :
  ∃ s' h', append growslice s xs h = Return s' h' ∧
    len s' = len s + length xs.
Proof.
  unfold append. destruct (len s + length xs <=? cap s); eauto.
Qed.

(** ** Operations on a clip without channels *)

(** C10: on a clip with zero channels, the one [NewClip(0)] builds
    included, [LenPerChannel], [Duration], the encoder [NewWaveFromClip],
    [Slice], [Split] and [Stretch] all index channel 0 of an empty list of
    channels and abort with an index out of range; none of them returns an
    error value. *)
Theorem zero_channels_abort (name : string) (rate : Z) (h : heap)
    (startIndex endIndex numDivisions : Z) :
  let c := mkClip [] name rate in
  NewClip 0 h = Return (mkClip [] "" 0) h ∧
  LenPerChannel c h = Panic IndexOutOfRange ∧
  Duration float_nanos c h = Panic IndexOutOfRange ∧
  NewWaveFromClip c h = Panic IndexOutOfRange ∧
  Slice c startIndex endIndex h = Panic IndexOutOfRange ∧
  Split c numDivisions h = Panic IndexOutOfRange ∧
  Stretch growslice c h = Panic IndexOutOfRange.
Proof. repeat split; reflexivity. Qed.

(** ** Stretch *)

(** C1: [Stretch] never produces the stretched clip.  Its inner loop starts
    at [i = len(c.Samples[0])], read after channel 0 was extended, and the
    first thing it evaluates is [c.Samples[chanNum][i]] with [i] equal to
    the length of that channel: on every clip, in every store, the call
    aborts with an index out of range. *)
Theorem Stretch_always_panics (c : Clip) (h : heap) :
  Stretch growslice c h = Panic IndexOutOfRange.
Proof.
  destruct c as [[|s0 rest] name rate]; [reflexivity |].
  unfold Stretch. simpl Samples.
  rewrite (bind_Return _ _ h s0 h) by reflexivity.
  simpl for_up. apply bind_Panic. simpl Samples.
  rewrite (bind_Return _ _ h s0 h) by reflexivity.
  erewrite bind_Return by (apply make_int16_spec; lia).
  unfold append_slice at 1.
  unfold bind at 1.
  match goal with |- context [append _ ?s ?xs ?h1] =>
    destruct (append_len s xs h1) as (s' & h' & -> & Hlen) end.
  rewrite (bind_Return _ _ h' (s' :: rest) h') by reflexivity.
  simpl Samples.
  rewrite (bind_Return _ _ h' s' h') by reflexivity.
  simpl for_down. apply bind_Panic.
  rewrite (bind_Return _ _ h' s' h') by reflexivity.
  apply bind_Panic. unfold load.
  replace (in_range (Z.of_nat (len s')) (len s')) with false; [done |].
  symmetry. apply not_true_is_false. rewrite in_range_spec. lia.
Qed.

(** ** Split with a division count that is not positive *)

(** C8: [Split] does not validate its division count.  With zero divisions
    the quotient [len(c.Samples[0]) / numDivisions] is a division by zero,
    with a negative count [make([]*Clip, numDivisions)] is refused; both are
    run-time panics, raised before any error value can be returned. *)
Theorem Split_nonpositive_panics (c : Clip) (h : heap) :
  let p :=
    match Samples c with [] => IndexOutOfRange | _ => DivideByZero end in
  let q :=
    match Samples c with [] => IndexOutOfRange | _ => MakeLenOutOfRange end in
  Split c 0 h = Panic p ∧
  ∀ n : positive, Split c (Z.neg n) h = Panic q.
Proof.
  destruct c as [[|s0 rest] name rate]; simpl; split; reflexivity.
Qed.

(** ** Mix *)

(** [mix] on well-formed headers returns, and leaves every array of the
    store with the size it had. *)
Lemma mix_returns s t h :
  slice_ok h s → slice_ok h t →
  returns (mix growslice s t) h (λ _ h', heap_le h h').
Proof.
  intros Hs Ht. unfold mix. apply returns_bind.
  apply (returns_mono _ _
    (λ s' h1, heap_le h h1 ∧ slice_ok h1 s' ∧ len t ≤ len s')).
  - destruct (len s <? len t) eqn:E.
    + apply Nat.ltb_lt in E. apply returns_bind.
      eapply returns_eq; [apply make_int16_spec; lia |].
      set (h1 := h ++ [_]). set (z := mkSlice _ _ _ _).
      destruct (append_spec growslice s (view h1 z) h1)
        as (s' & h2 & Happ & Hle & Hok & _ & Hlen & _).
      { eapply slice_ok_le; [apply heap_le_app | done]. }
      eapply returns_eq; [exact Happ |].
      split; [| split; [done |]].
      * eapply heap_le_trans; [apply heap_le_app | done].
      * rewrite Hlen. subst h1 z. rewrite view_fresh.
        rewrite length_take, length_replicate. lia.
    + apply Nat.ltb_ge in E. apply returns_ret.
      split; [apply heap_le_refl | done].
  - intros s' h1 (Hle1 & Hs' & Hlen).
    eapply returns_mono.
    + apply (for_up_inv (λ _ _ hk, heap_le h1 hk)); [apply heap_le_refl |].
      intros k [] hk Hk Hle. rewrite Z.add_0_l.
      destruct (load_spec hk t (Z.of_nat k)) as (v & Hv & _);
        [eapply slice_ok_le; [| exact Ht]; by eapply heap_le_trans
        | by apply in_range_nat |].
      apply returns_bind. eapply returns_eq; [exact Hv |].
      destruct (load_spec hk s' (Z.of_nat k)) as (v2 & Hv2 & _);
        [by eapply slice_ok_le | apply in_range_nat; lia |].
      apply returns_bind. eapply returns_eq; [exact Hv2 |].
      eapply returns_eq; [apply store_spec, in_range_nat; lia |].
      eapply heap_le_trans; [exact Hle | apply store_heap_le].
    + intros ? h' Hle. simpl in Hle. by eapply heap_le_trans.
Qed.

(** C9: [s.Mix(t)] on clips with as many channels each returns without an
    error, and every channel of [s] shows afterwards exactly as many samples
    as before: the extension by [append] inside [mix] reaches a header local
    to [mix] only, and writes to the store keep the size of every array. *)
Theorem Mix_keeps_lengths (s t : Clip) (h : heap) :
  length (Samples s) = length (Samples t) →
  Forall (slice_ok h) (Samples s) →
  Forall (slice_ok h) (Samples t) →
  ∃ h', Mix growslice s t h = Return None h' ∧
    Forall (λ ch, slice_ok h' ch ∧ length (view h' ch) = length (view h ch))
           (Samples s).
Proof.
  intros Hlen Hs Ht.
  assert (returns (Mix growslice s t) h (λ e h', e = None ∧ heap_le h h'))
    as Hret.
  { unfold Mix. rewrite Hlen, Nat.eqb_refl. simpl.
    apply returns_bind. eapply returns_mono.
    - apply (for_up_inv (λ _ _ hk, heap_le h hk)); [apply heap_le_refl |].
      intros k [] hk Hk Hle. rewrite Z.add_0_l.
      destruct (lookup_lt_is_Some_2 (Samples s) k) as [a Ha]; [lia |].
      destruct (lookup_lt_is_Some_2 (Samples t) k) as [b Hb]; [lia |].
      rewrite (chan_spec _ _ _ Ha). apply returns_bind, returns_ret.
      rewrite (chan_spec _ _ _ Hb). apply returns_bind, returns_ret.
      eapply returns_mono.
      + apply mix_returns; (eapply slice_ok_le; [exact Hle |]).
        * eapply Forall_lookup_1; [exact Hs | exact Ha].
        * eapply Forall_lookup_1; [exact Ht | exact Hb].
      + intros ? h' Hle'. simpl in Hle'. by eapply heap_le_trans.
    - intros ? h' Hle. by apply returns_ret. }
  apply returns_inv in Hret as (e & h' & Heq & -> & Hle).
  exists h'. split; [done |].
  eapply Forall_impl; [exact Hs |].
  intros ch Hch. simpl.
  assert (slice_ok h' ch) by (by eapply slice_ok_le).
  split; [done |]. by rewrite !length_view.
Qed.

(** *** The saturation rule *)

Lemma MaxInt16_eq : MaxInt16 = 32767%Z.
Proof. reflexivity. Qed.

Lemma MinInt16_eq : MinInt16 = (-32768)%Z.
Proof. reflexivity. Qed.

Ltac wrap16_cases a b :=
  unfold mixed_sample, wrap16; rewrite MaxInt16_eq, MinInt16_eq;
  pose proof (Z.mod_pos_bound (a + b + 32768) 65536 ltac:(lia));
  pose proof (Z.div_mod (a + b + 32768) 65536 ltac:(lia));
  repeat match goal with
         | |- context [(?x <? ?y)%Z] => destruct (Z.ltb_spec x y)
         end;
  simpl; lia.

(** On 16-bit samples the value [mix] stores is the sum clamped to the
    16-bit range. *)
Lemma mixed_sample_saturates (a b : Z) :
  (-32768 ≤ a ≤ 32767)%Z → (-32768 ≤ b ≤ 32767)%Z →
  mixed_sample b a = Z.max (-32768) (Z.min 32767 (a + b)).
Proof. intros Ha Hb. rewrite (Z.add_comm a b). wrap16_cases b a. Qed.

(** The test of the code (sign of the sample of [s], wrapped sum against
    the sample of [t]) selects the same value as the rule that tests the
    sign of the sample [b] of [t] and compares the wrapped sum with the
    sample [a] of [s]. *)
Lemma mixed_sample_rule (a b : Z) :
  (-32768 ≤ a ≤ 32767)%Z → (-32768 ≤ b ≤ 32767)%Z →
  mixed_sample b a =
    let raw := wrap16 (a + b) in
    if (0 <? b)%Z && (raw <? a)%Z then 32767%Z
    else if (b <? 0)%Z && (a <? raw)%Z then (-32768)%Z
    else raw.
Proof.
  intros Ha Hb. rewrite mixed_sample_saturates by done.
  cbv zeta. unfold wrap16.
  pose proof (Z.mod_pos_bound (a + b + 32768) 65536 ltac:(lia)).
  pose proof (Z.div_mod (a + b + 32768) 65536 ltac:(lia)).
  repeat match goal with
         | |- context [(?x <? ?y)%Z] => destruct (Z.ltb_spec x y)
         end;
  simpl; lia.
Qed.

(** *** Mixing in place *)

Lemma zip_with_step {A} (f : A → A → A) (vt vs : list A) k a b :
  vt !! k = Some a → vs !! k = Some b →
  <[k := f a b]> (zip_with f (take k vt) (take k vs) ++ drop k vs) =
  zip_with f (take (S k) vt) (take (S k) vs) ++ drop (S k) vs.
Proof.
  intros Ha Hb.
  pose proof (lookup_lt_Some _ _ _ Ha) as Hka.
  pose proof (lookup_lt_Some _ _ _ Hb) as Hkb.
  rewrite (take_S_r vt k a Ha), (take_S_r vs k b Hb).
  rewrite zip_with_app by (rewrite !length_take; lia).
  rewrite (drop_S vs b k Hb). simpl.
  rewrite insert_app_r_alt
    by (rewrite length_zip_with, !length_take; lia).
  replace (k - length (zip_with f (take k vt) (take k vs))) with 0
    by (rewrite length_zip_with, !length_take; lia).
  simpl. by rewrite <- app_assoc.
Qed.

Lemma view_store h s k v :
  slice_ok h s → k < len s →
  view (alter (<[off s + k := v]>) (arr s) h) s = <[k := v]> (view h s).
Proof.
  intros (Hlc & a & Ha & Hb) Hk. unfold view.
  rewrite list_lookup_alter_eq, Ha. simpl.
  rewrite drop_insert_ge by lia.
  rewrite take_insert_lt by lia. f_equal. lia.
Qed.

(** When the channel of [t] is no longer than the one of [s] and lies in
    another array, [mix] stores the mixed samples in the array of [s]: the
    first [len t] samples of [s] become the mixed values, the others and
    the samples of [t] stay. *)
Lemma mix_in_place (s t : slice) (h : heap) :
  slice_ok h s → slice_ok h t → len t ≤ len s → arr s ≠ arr t →
  ∃ h', mix growslice s t h = Return tt h' ∧
    view h' s =
      zip_with mixed_sample (view h t) (take (len t) (view h s)) ++
      drop (len t) (view h s) ∧
    view h' t = view h t.
Proof.
  intros Hs Ht Hlen Hne.
  assert (returns (mix growslice s t) h (λ _ h',
    heap_le h h' ∧ h' !! arr t = h !! arr t ∧
    view h' s =
      zip_with mixed_sample (take (len t) (view h t))
        (take (len t) (view h s)) ++ drop (len t) (view h s))) as Hret.
  { unfold mix.
    replace (len s <? len t) with false by (symmetry; apply Nat.ltb_ge; lia).
    apply returns_bind, returns_ret.
    apply (for_up_inv (λ k _ hk,
      heap_le h hk ∧ hk !! arr t = h !! arr t ∧
      view hk s =
        zip_with mixed_sample (take k (view h t)) (take k (view h s)) ++
        drop k (view h s))).
    - split; [apply heap_le_refl |]. split; [done |].
      by rewrite !take_0, drop_0.
    - intros k [] hk Hk (Hle & Hfr & Hview). rewrite Z.add_0_l.
      assert (slice_ok hk s) as Hs' by (by eapply slice_ok_le).
      assert (slice_ok hk t) as Ht' by (by eapply slice_ok_le).
      destruct (load_spec hk t (Z.of_nat k) Ht') as (v & Hv & Hvk);
        [by apply in_range_nat |].
      destruct (load_spec hk s (Z.of_nat k) Hs') as (v2 & Hv2 & Hv2k);
        [apply in_range_nat; lia |].
      rewrite Nat2Z.id in Hvk, Hv2k.
      rewrite (view_frame h hk t Hfr) in Hvk.
      rewrite Hview in Hv2k.
      rewrite lookup_app_r in Hv2k
        by (rewrite length_zip_with, !length_take, !length_view by done;
            lia).
      rewrite length_zip_with, !length_take, !length_view in Hv2k by done.
      rewrite lookup_drop in Hv2k.
      match type of Hv2k with _ !! ?i = _ =>
        replace i with k in Hv2k by lia end.
      apply returns_bind. eapply returns_eq; [exact Hv |].
      apply returns_bind. eapply returns_eq; [exact Hv2 |].
      eapply returns_eq; [apply store_spec, in_range_nat; lia |].
      rewrite Nat2Z.id.
      split.
      { eapply heap_le_trans; [exact Hle |].
        apply heap_le_alter. intros ?. apply length_insert. }
      split; [by rewrite list_lookup_alter_ne |].
      rewrite view_store by (done || lia).
      rewrite Hview. by apply zip_with_step. }
  apply returns_inv in Hret as ([] & h' & Heq & Hle & Hfr & Hview).
  exists h'. split; [done |]. split; [| by apply view_frame].
  rewrite Hview. do 2 f_equal.
  apply take_ge. by rewrite length_view.
Qed.

(** C2: [Mix] does not lengthen its receiver.  With [s] holding the single
    sample [1] and [t] holding [1; 2], the call returns without an error and
    the channel of [s] still has one sample, fewer than the two of [t]: the
    zero-extended slice that received the mix was local to [mix]. *)
Theorem Mix_does_not_extend :
  ∃ h', Mix growslice short_clip long_clip short_long_store = Return None h' ∧
    channels short_long_store short_clip = [[1%Z]] ∧
    channels short_long_store long_clip = [[1%Z; 2%Z]] ∧
    channels h' short_clip = [[1%Z]].
Proof. eexists. repeat split. Qed.

(** C3: when the channel of [t] is longer than the capacity of the channel
    of [s], the samples [Mix] computes never reach [s].  With [s] holding
    [5] and [t] holding [32767; 0], position 0 is present in both, the
    saturated sum of the two samples is 32767, and after the call [s] still
    holds [5]. *)
Theorem Mix_result_not_stored :
  ∃ h', Mix growslice quiet_clip loud_clip loud_store = Return None h' ∧
    channels loud_store quiet_clip = [[5%Z]] ∧
    channels loud_store loud_clip = [[32767%Z; 0%Z]] ∧
    mixed_sample 32767 5 = 32767%Z ∧
    channels h' quiet_clip = [[5%Z]].
Proof. eexists. repeat split. Qed.

(** ** Appending to one channel among several *)

Lemma NoDup_insert_fresh {A} (l : list A) j x :
  NoDup l → x ∉ l → NoDup (<[j:=x]> l).
Proof.
  intros Hnd Hx. apply NoDup_alt. intros i1 i2 y H1 H2.
  apply list_lookup_insert_Some in H1, H2.
  destruct H1 as [(-> & -> & _)|(Hn1 & H1)],
           H2 as [(E & E' & _)|(Hn2 & H2)]; try done.
  - exfalso. apply Hx. by eapply list_elem_of_lookup_2.
  - exfalso. subst y. apply Hx. by eapply list_elem_of_lookup_2.
  - by eapply NoDup_lookup.
Qed.

(** Appending to channel [j] of channels in distinct arrays extends that
    channel, leaves the others as they were, and keeps the arrays
    distinct. *)
Lemma append_chan (l : list slice) j s xs h :
  chans_ok h l → l !! j = Some s →
  ∃ s' h', append growslice s xs h = Return s' h' ∧
    heap_le h h' ∧ chans_ok h' (<[j:=s']> l) ∧
    view h' <$> <[j:=s']> l = <[j := view h s ++ xs]> (view h <$> l) ∧
    (arr s' = arr s ∨ arr s' = length h) ∧
    (∀ i, i ≠ arr s → i < length h → h' !! i = h !! i).
Proof.
  intros [Hok Hnd] Hj.
  assert (slice_ok h s) as Hs by (by eapply Forall_lookup_1).
  destruct (append_spec growslice s xs h Hs)
    as (s' & h' & Happ & Hle & Hs' & Hview & _ & Harr & Hframe).
  exists s', h'. repeat split; try done.
  - apply Forall_insert; [| done].
    eapply Forall_impl; [exact Hok |]. intros u. by apply slice_ok_le.
  - rewrite list_fmap_insert. destruct Harr as [->| ->].
    + rewrite list_insert_id; [done |]. by rewrite list_lookup_fmap, Hj.
    + apply NoDup_insert_fresh; [done |].
      intros (u & Hu & Hin)%list_elem_of_fmap.
      eapply Forall_forall in Hin; [| exact Hok].
      apply slice_ok_lt in Hin. lia.
  - rewrite list_fmap_insert, Hview. apply list_eq. intros k.
    destruct (decide (j = k)) as [->|Hne].
    + destruct (decide (k < length l)) as [Hk|Hk].
      * rewrite !list_lookup_insert_eq by (rewrite length_fmap; exact Hk).
        done.
      * rewrite !lookup_ge_None_2
          by (rewrite length_insert, length_fmap; lia).
        done.
    + rewrite !list_lookup_insert_ne by done.
      rewrite !list_lookup_fmap.
      destruct (l !! k) as [u|] eqn:Hk; [| done]. simpl. f_equal.
      apply view_frame, Hframe.
      * intros E. apply Hne.
        eapply (NoDup_lookup (arr <$> l)); [done | |].
        -- by rewrite list_lookup_fmap, Hj.
        -- rewrite list_lookup_fmap, Hk. simpl. by rewrite E.
      * eapply slice_ok_lt, Forall_lookup_1; [exact Hok | exact Hk].
Qed.

(** ** Append *)

Lemma zip_app_step {A} (vt vs : list (list A)) k a b :
  vt !! k = Some a → vs !! k = Some b →
  <[k := a ++ b]> (zip_with (++) (take k vt) (take k vs) ++ drop k vt) =
  zip_with (++) (take (S k) vt) (take (S k) vs) ++ drop (S k) vt.
Proof.
  intros Ha Hb.
  pose proof (lookup_lt_Some _ _ _ Ha) as Hka.
  pose proof (lookup_lt_Some _ _ _ Hb) as Hkb.
  rewrite (take_S_r vt k a Ha), (take_S_r vs k b Hb).
  rewrite zip_with_app by (rewrite !length_take; lia).
  rewrite (drop_S vt a k Ha). simpl.
  rewrite insert_app_r_alt
    by (rewrite length_zip_with, !length_take; lia).
  replace (k - length (zip_with app (take k vt) (take k vs))) with 0
    by (rewrite length_zip_with, !length_take; lia).
  simpl. by rewrite <- app_assoc.
Qed.

Lemma Append_step (target source : Clip) h k tk hk :
  length (Samples target) = length (Samples source) →
  Forall (slice_ok h) (Samples source) →
  (∀ u, u ∈ Samples source → arr u ∉ arr <$> Samples target) →
  k < length (Samples target) →
  Append_inv target source h k tk hk →
  returns
    (let! t := chan (Samples tk) (Z.of_nat k) in
     let! s := chan (Samples source) (Z.of_nat k) in
     let! t := append_slice growslice t s in
     let! l := set_chan (Samples tk) (Z.of_nat k) t in
     ret (set_Samples tk l)) hk
    (Append_inv target source h (S k)).
Proof.
  intros Hlen Hsrc Hdisj Hk (Hle & Hok & Hn & Hviews & Hfr & Harrs).
  destruct (lookup_lt_is_Some_2 (Samples tk) k) as [t Ht]; [lia |].
  destruct (lookup_lt_is_Some_2 (Samples source) k) as [s Hs]; [lia |].
  assert (channels h target !! k = Some (view hk t)) as Hvt.
  { pose proof (f_equal (.!! k) Hviews) as E. simpl in E.
    rewrite list_lookup_fmap, Ht in E. simpl in E.
    rewrite lookup_app_r in E
      by (unfold channels;
          rewrite length_zip_with, !length_take, !length_fmap; lia).
    rewrite lookup_drop in E.
    rewrite E. f_equal.
    unfold channels.
    rewrite length_zip_with, !length_take, !length_fmap. lia. }
  assert (channels h source !! k = Some (view hk s)) as Hvs.
  { unfold channels. rewrite list_lookup_fmap, Hs. simpl. f_equal.
    symmetry. apply view_frame, Hfr. by eapply list_elem_of_lookup_2. }
  rewrite (chan_spec _ _ _ Ht). apply returns_bind, returns_ret.
  rewrite (chan_spec _ _ _ Hs). apply returns_bind, returns_ret.
  destruct (append_chan (Samples tk) k t (view hk s) hk Hok Ht)
    as (t' & h' & Happ & Hle' & Hok' & Hviews' & Harr & Hframe).
  apply returns_bind. eapply returns_eq; [exact Happ |].
  rewrite set_chan_spec by lia. apply returns_bind, returns_ret.
  apply returns_ret. unfold Append_inv. simpl.
  assert (arr t ∈ arr <$> Samples target ∨ length h ≤ arr t) as Ht_arr
    by (by eapply Harrs, list_elem_of_lookup_2).
  split; [by eapply heap_le_trans |].
  split; [done |].
  split; [by rewrite length_insert |].
  split; [| split].
  - rewrite Hviews', Hviews. by apply zip_app_step.
  - intros u Hu. rewrite <- (Hfr u Hu).
    assert (slice_ok h u) as Hu_ok
      by (eapply Forall_forall; [exact Hsrc | exact Hu]).
    apply slice_ok_lt in Hu_ok. apply heap_le_length in Hle.
    apply Hframe; [| lia].
    intros E. destruct Ht_arr as [Hin|Hge]; [| lia].
    apply (Hdisj u Hu). by rewrite E.
  - intros u (i & Hi)%list_elem_of_lookup_1.
    apply list_lookup_insert_Some in Hi as [(-> & <- & _)|(_ & Hi)].
    + destruct Harr as [->| ->]; [done |].
      right. by apply heap_le_length.
    + by eapply Harrs, list_elem_of_lookup_2.
Qed.

(** C6, amended: when the channel counts differ [Append] returns the
    error for mismatched channels and changes nothing.  When they agree, the
    channels of the target lie in pairwise distinct arrays and no channel of
    the source lies in an array of a target channel, [Append] returns
    without an error, each channel of the target is its former contents
    followed by the contents of the matching source channel, and the
    channels of the source read as before. *)
Theorem Append_extends_target (target source : Clip) (h : heap) :
  (length (Samples target) ≠ length (Samples source) →
   Append growslice target source h = Return (target, ChannelMismatch) h) ∧
  (length (Samples target) = length (Samples source) →
   chans_ok h (Samples target) →
   Forall (slice_ok h) (Samples source) →
   (∀ u, u ∈ Samples source → arr u ∉ arr <$> Samples target) →
   ∃ target' h',
     Append growslice target source h = Return (target', None) h' ∧
     channels h' target' =
       zip_with (++) (channels h target) (channels h source) ∧
     channels h' source = channels h source).
Proof.
  split.
  - intros Hne. unfold Append.
    apply Nat.eqb_neq in Hne. by rewrite Hne.
  - intros Hlen Hok Hsrc Hdisj.
    assert (returns (Append growslice target source) h
      (λ r h', r.2 = None ∧
         Append_inv target source h (length (Samples target)) r.1 h'))
      as Hret.
    { unfold Append.
      replace (length (Samples target) =? length (Samples source))
        with true by (symmetry; by apply Nat.eqb_eq).
      simpl. apply returns_bind. eapply returns_mono.
      - apply (for_up_inv (Append_inv target source h)).
        + unfold Append_inv.
          split; [apply heap_le_refl |]. split; [done |]. split; [done |].
          split; [done |]. split; [done |].
          intros u Hu. left. by apply list_elem_of_fmap_2.
        + intros k tk hk Hk Hinv. rewrite Z.add_0_l.
          by apply Append_step.
      - intros tk h' Hinv. by apply returns_ret. }
    apply returns_inv in Hret as ([target' e] & h' & Heq & He & Hinv).
    simpl in He, Hinv. subst e.
    destruct Hinv as (Hle & Hok' & Hn & Hviews & Hfr & _).
    exists target', h'. split; [done |]. split.
    + unfold channels at 1. rewrite Hviews.
      rewrite !take_ge, drop_ge
        by (unfold channels; rewrite length_fmap; lia).
      by rewrite app_nil_r.
    + unfold channels. apply list_fmap_ext. intros i u Hu.
      apply view_frame, Hfr. by eapply list_elem_of_lookup_2.
Qed.

(** ** NewClip, Slice and Split *)

Lemma returns_eq_inv {A} (m : M A) h (x : A) (y : heap) :
  returns m h (λ a h', a = x ∧ h' = y) → m h = Return x y.
Proof. intros (a & h' & -> & -> & ->)%returns_inv. done. Qed.

Lemma insert_app_drop {A} (l1 f : list A) k w :
  length l1 = k → k < length f →
  <[k := w]> (l1 ++ drop k f) = (l1 ++ [w]) ++ drop (S k) f.
Proof.
  intros Hl Hk. destruct (lookup_lt_is_Some_2 f k Hk) as [x Hx].
  rewrite (drop_S f x k Hx).
  rewrite insert_app_r_alt by lia.
  replace (k - length l1) with 0 by lia. simpl. by rewrite <- app_assoc.
Qed.

Lemma fresh_chans_S base k :
  fresh_chans base (S k) = fresh_chans base k ++ [mkSlice (base + k) 0 0 0].
Proof. unfold fresh_chans. by rewrite seq_S, fmap_app. Qed.

Lemma length_fresh_chans base n : length (fresh_chans base n) = n.
Proof. unfold fresh_chans. by rewrite length_fmap, length_seq. Qed.

(** [NewClip(n)] for [n >= 0] allocates [n] empty arrays, one per channel. *)
Lemma NewClip_spec n h :
  (0 ≤ n)%Z →
  NewClip n h =
    Return (mkClip (fresh_chans (length h) (Z.to_nat n)) "" 0)
           (h ++ replicate (Z.to_nat n) []).
Proof.
  intros Hn. apply returns_eq_inv. unfold NewClip, make_chans.
  destruct (n <? 0)%Z eqn:E; [apply Z.ltb_lt in E; lia |].
  apply returns_bind, returns_ret. simpl.
  set (N := Z.to_nat n).
  eapply returns_mono.
  - apply (for_up_inv (λ k c hk,
      hk = h ++ replicate k [] ∧
      c = mkClip (fresh_chans (length h) k ++
                  drop k (replicate N (mkSlice 0 0 0 0))) "" 0)).
    + split; [by rewrite app_nil_r | done].
    + intros k c hk Hk [-> ->]. rewrite Z.add_0_l. cbn [Samples].
      apply returns_bind.
      eapply returns_eq; [by apply make_int16_spec |].
      rewrite set_chan_spec
        by (rewrite length_app, length_fresh_chans, length_drop,
              length_replicate; lia).
      apply returns_bind, returns_ret, returns_ret.
      split.
      * by rewrite replicate_S_end, app_assoc.
      * unfold set_Samples. cbn [Samples Name SampleRate]. f_equal.
        rewrite insert_app_drop
          by (rewrite ?length_fresh_chans, ?length_replicate; lia).
        rewrite fresh_chans_S. do 3 f_equal.
        rewrite length_app, length_replicate. done.
  - intros c h' [-> ->]. simpl. split; [| done].
    rewrite drop_ge by (rewrite length_replicate; lia).
    by rewrite app_nil_r.
Qed.

Lemma chan_0 (l : list slice) s : l !! 0 = Some s → chan l 0 = ret s.
Proof. intros Hs. by apply (chan_spec l 0 s). Qed.

(** [Slice] on a clip with a first channel, for a window that fits the
    first channel and the capacity of every channel: the result shares the
    arrays of the receiver. *)
Lemma Slice_spec (s : Clip) s0 (lo hi : nat) h :
  Samples s !! 0 = Some s0 →
  lo ≤ hi → hi ≤ len s0 →
  Forall (λ ch, hi ≤ cap ch) (Samples s) →
  Slice s (Z.of_nat lo) (Z.of_nat hi) h =
    Return (mkClip (window lo (hi - lo) <$> Samples s) "" 0, None)
           (h ++ replicate (length (Samples s)) []).
Proof.
  intros H0 Hlo Hhi Hcap. apply returns_eq_inv. unfold Slice.
  apply returns_bind.
  eapply returns_eq; [apply NewClip_spec; lia |].
  rewrite Nat2Z.id. set (h1 := h ++ _).
  rewrite (chan_0 _ _ H0). apply returns_bind, returns_ret.
  replace (Z.of_nat (len s0) <? Z.of_nat hi)%Z with false
    by (symmetry; apply Z.ltb_ge; lia).
  apply returns_bind. eapply returns_mono.
  - apply (for_up_inv (λ k t hk,
      hk = h1 ∧
      t = mkClip ((window lo (hi - lo) <$> take k (Samples s)) ++
                  drop k (fresh_chans (length h) (length (Samples s))))
                 "" 0)).
    + split; [done |]. by rewrite take_0, drop_0.
    + intros k t hk Hk [-> ->]. rewrite Z.add_0_l. cbn [Samples].
      destruct (lookup_lt_is_Some_2 (Samples s) k Hk) as [ch Hch].
      rewrite (chan_spec _ _ _ Hch). apply returns_bind, returns_ret.
      assert (hi ≤ cap ch) as Hc
        by (eapply (Forall_lookup_1 _ _ _ _ Hcap); exact Hch).
      unfold reslice.
      replace ((0 <=? Z.of_nat lo)%Z && (Z.of_nat lo <=? Z.of_nat hi)%Z
               && (Z.of_nat hi <=? Z.of_nat (cap ch))%Z) with true
        by (symmetry; rewrite !andb_true_iff, !Z.leb_le; lia).
      apply returns_bind, returns_ret.
      rewrite set_chan_spec
        by (rewrite length_app, length_fmap, length_take, length_drop,
              length_fresh_chans; lia).
      apply returns_bind, returns_ret, returns_ret.
      split; [done |]. unfold set_Samples. cbn [Samples Name SampleRate].
      f_equal.
      rewrite insert_app_drop
        by (rewrite ?length_fmap, ?length_take, ?length_fresh_chans; lia).
      f_equal. rewrite (take_S_r _ _ _ Hch), fmap_app. simpl.
      do 2 f_equal. unfold window. f_equal; lia.
  - intros t h' [-> ->]. apply returns_ret. split; [| done].
    rewrite firstn_all, drop_ge by (rewrite length_fresh_chans; lia).
    by rewrite app_nil_r.
Qed.

Lemma view_app_l h ext s : slice_ok h s → view (h ++ ext) s = view h s.
Proof.
  intros (_ & a & Ha & _). apply view_frame.
  rewrite Ha. by apply lookup_app_l_Some.
Qed.

Lemma view_window h s lo m :
  slice_ok h s → lo + m ≤ len s →
  view h (window lo m s) = take m (drop lo (view h s)).
Proof.
  intros (Hlc & a & Ha & Hb) Hm. unfold view, window. simpl. rewrite Ha.
  simpl. apply list_eq. intros k.
  destruct (decide (k < m)) as [Hk|Hk].
  - rewrite !lookup_take_lt, !lookup_drop by lia.
    rewrite lookup_take_lt, lookup_drop by lia. f_equal. lia.
  - by rewrite !lookup_take_ge by lia.
Qed.

Lemma concat_steps {A} (v : list A) step N :
  concat ((λ i, take step (drop (step * i) v)) <$> seq 0 N) =
  take (step * N) v.
Proof.
  induction N as [|N IH].
  - by rewrite Nat.mul_0_r, take_0.
  - rewrite seq_S, fmap_app, concat_app, IH. simpl.
    rewrite app_nil_r, take_take_drop. f_equal. lia.
Qed.

(** The loop of [Split] fills the remaining [m] entries, one segment per
    iteration; each iteration allocates the empty arrays of [NewClip]. *)
Lemma Split_loop_spec (c : Clip) s0 step N :
  Samples c !! 0 = Some s0 →
  step * N ≤ len s0 →
  Forall (λ ch, len s0 ≤ cap ch) (Samples c) →
  ∀ m k hk, k + m = N →
    Split_loop m (Z.of_nat k) c (Z.of_nat step)
      ((Some ∘ segment c step <$> seq 0 k) ++ replicate m None) hk =
    Return (Some ∘ segment c step <$> seq 0 N, None)
           (hk ++ replicate (m * length (Samples c)) []).
Proof.
  intros H0 Hstep Hcap. induction m as [|m IH]; intros k hk Hkm.
  - simpl. rewrite !app_nil_r. replace k with N by lia. done.
  - cbn [Split_loop].
    replace (Z.of_nat step * Z.of_nat k)%Z with (Z.of_nat (step * k))
      by lia.
    replace (Z.of_nat (step * k) + Z.of_nat step)%Z
      with (Z.of_nat (step * k + step)) by lia.
    assert (step * k + step ≤ len s0) as Hhi by nia.
    erewrite bind_Return; cycle 1.
    { apply (Slice_spec c s0); [done | lia | done |].
      eapply Forall_impl; [exact Hcap |]. intros ch Hch. simpl in *. lia. }
    cbn beta iota.
    rewrite in_range_nat
      by (rewrite length_app, length_fmap, length_seq, length_replicate;
          lia).
    rewrite Nat2Z.id.
    replace (step * k + step - step * k) with step by lia.
    change (mkClip (window (step * k) step <$> Samples c) "" 0)
      with (segment c step k).
    rewrite insert_app_r_alt by (rewrite length_fmap, length_seq; lia).
    rewrite length_fmap, length_seq, Nat.sub_diag. simpl.
    replace (Z.of_nat k + 1)%Z with (Z.of_nat (S k)) by lia.
    specialize (IH (S k) (hk ++ replicate (length (Samples c)) [])).
    rewrite seq_S, fmap_app in IH. simpl in IH.
    rewrite <- app_assoc in IH. simpl in IH.
    rewrite IH by lia.
    by rewrite <- app_assoc, <- replicate_add.
Qed.

(** C7, amended: for a clip with at least one channel whose channels all
    hold at least as many samples as channel 0, and a division count
    [0 < n <= 32767], [Split] returns [n] clips and no error; the first
    channels of these clips, concatenated in order, are exactly the first
    [n * (len / n)] samples of the first channel of the clip, [len] being
    its length, and the [len mod n] samples behind them are in none of the
    divisions.  The clip itself reads as before.  The upper bound keeps [n]
    among the lengths [make([]*Clip, n)] accepts on every runtime. *)
Theorem Split_segments (c : Clip) (s0 : slice) (n : Z) (h : heap) :
  Samples c !! 0 = Some s0 →
  (0 < n ≤ 32767)%Z →
  Forall (slice_ok h) (Samples c) →
  Forall (λ ch, len s0 ≤ len ch) (Samples c) →
  let N := Z.to_nat n in
  ∃ ts h',
    Split c n h = Return (Some <$> ts, None) h' ∧
    length ts = N ∧
    concat (channel0 h' <$> ts) = take (N * (len s0 / N)) (channel0 h c) ∧
    channel0 h c =
      concat (channel0 h' <$> ts) ++ drop (N * (len s0 / N)) (channel0 h c) ∧
    length (drop (N * (len s0 / N)) (channel0 h c)) = len s0 `mod` N ∧
    channels h' c = channels h c.
Proof.
  intros H0 Hn Hok Hlen N.
  assert (N ≠ 0) as HN by lia.
  set (step := len s0 / N).
  assert (step * N ≤ len s0) as Hstep
    by (rewrite Nat.mul_comm; by apply Nat.Div0.mul_div_le).
  assert (slice_ok h s0) as Hs0 by (by eapply Forall_lookup_1).
  assert (channel0 h c = view h s0) as Hc0.
  { unfold channel0, channels. destruct (Samples c); by simplify_eq/=. }
  set (h' := h ++ replicate (N * length (Samples c)) []).
  assert (Forall (λ ch, len s0 ≤ cap ch) (Samples c)) as Hcap.
  { apply Forall_forall. intros ch Hch.
    pose proof (proj1 (Forall_forall _ _) Hok ch Hch) as [? _].
    pose proof (proj1 (Forall_forall _ _) Hlen ch Hch). simpl in *. lia. }
  assert (concat (channel0 h' <$> (segment c step <$> seq 0 N)) =
          take (N * step) (channel0 h c)) as Hconcat.
  { rewrite <- list_fmap_compose, Hc0, (Nat.mul_comm N).
    rewrite <- concat_steps. f_equal.
    apply list_fmap_ext. intros i x [-> Hi]%lookup_seq. simpl.
    assert (step * i + step ≤ len s0) by nia.
    unfold channel0, channels, segment. cbn [Samples].
    destruct (Samples c) as [|s0' rest]; simplify_eq/=.
    rewrite view_window; [| | done].
    - unfold h'. by rewrite (view_app_l h _ s0).
    - eapply slice_ok_le; [apply heap_le_app | done]. }
  exists (segment c step <$> seq 0 N), h'.
  split; [| split; [| split; [| split; [| split]]]].
  - unfold Split. rewrite (chan_0 _ _ H0).
    erewrite bind_Return by reflexivity.
    replace (n =? 0)%Z with false by (symmetry; apply Z.eqb_neq; lia).
    unfold make_clips.
    replace (n <? 0)%Z with false by (symmetry; apply Z.ltb_ge; lia).
    erewrite bind_Return by reflexivity.
    replace (Z.of_nat (len s0) ÷ n)%Z with (Z.of_nat step).
    2:{ rewrite Z.quot_div_nonneg by lia. unfold step.
        rewrite Nat2Z.inj_div. f_equal. lia. }
    rewrite <- list_fmap_compose.
    by apply (Split_loop_spec c s0 step N H0 Hstep Hcap N 0 h).
  - by rewrite length_fmap, length_seq.
  - done.
  - by rewrite Hconcat, take_drop.
  - rewrite length_drop, Hc0, length_view by done.
    pose proof (Nat.div_mod_eq (len s0) N). fold step in H. lia.
  - unfold channels. apply list_fmap_ext. intros i ch Hch.
    apply view_app_l. by eapply Forall_lookup_1.
Qed.

(** ** Deinterleaving and interleaving *)

Lemma samples_mod_pick_from n c i (l : list Z) :
  (filter (λ p : nat * Z, p.1 `mod` n = c) (imap (λ j, pair (i + j)) l)).*2
  = pick n c i l.
Proof.
  revert i. induction l as [|x l IH]; intros i; [done |].
  rewrite imap_cons, filter_cons. simpl. rewrite Nat.add_0_r.
  rewrite <- (IH (S i)).
  assert (imap ((λ j, pair (i + j)) ∘ S) l = imap (λ j, pair (S i + j)) l)
    as ->.
  { apply imap_ext. intros j y _. simpl. f_equal. lia. }
  by destruct (decide (i `mod` n = c)).
Qed.

Lemma samples_mod_pick n c (l : list Z) : samples_mod n c l = pick n c 0 l.
Proof. apply (samples_mod_pick_from n c 0 l). Qed.

Lemma pick_app n c i l1 l2 :
  pick n c i (l1 ++ l2) = pick n c i l1 ++ pick n c (i + length l1) l2.
Proof.
  revert i. induction l1 as [|x l1 IH]; intros i; simpl.
  - by rewrite Nat.add_0_r.
  - rewrite IH. replace (S i + length l1) with (i + S (length l1)) by lia.
    by destruct (decide (i `mod` n = c)).
Qed.

Lemma samples_mod_snoc n c l x :
  samples_mod n c (l ++ [x]) =
  samples_mod n c l ++ (if decide (length l `mod` n = c) then [x] else []).
Proof. rewrite !samples_mod_pick, pick_app. done. Qed.

Lemma pick_none n c i l :
  (∀ j, j < length l → (i + j) `mod` n ≠ c) → pick n c i l = [].
Proof.
  revert i. induction l as [|x l IH]; intros i Hj; [done |]. simpl.
  destruct (decide (i `mod` n = c)) as [E|_].
  - exfalso. apply (Hj 0); [simpl; lia |]. by rewrite Nat.add_0_r.
  - apply IH. intros j Hlt. replace (S i + j) with (i + S j) by lia.
    apply Hj. simpl. lia.
Qed.

(** A block of [n] samples that starts at a multiple of [n] contributes its
    element number [c] to channel [c]. *)
Lemma pick_row n c q (r : list Z) x :
  length r = n → r !! c = Some x → pick n c (q * n) r = [x].
Proof.
  intros Hr Hc. pose proof (lookup_lt_Some _ _ _ Hc) as Hlt.
  rewrite <- (take_drop_middle r c x Hc).
  rewrite pick_app, length_take, Nat.min_l by lia.
  rewrite pick_none.
  2:{ intros j Hj. rewrite length_take in Hj.
      rewrite Nat.add_comm, Nat.Div0.mod_add, Nat.mod_small by lia. lia. }
  simpl.
  replace ((q * n + c) `mod` n) with c
    by (rewrite Nat.add_comm, Nat.Div0.mod_add, Nat.mod_small by lia; done).
  rewrite decide_True by done. f_equal.
  apply pick_none. intros j Hj. rewrite length_drop in Hj.
  replace (S (q * n + c) + j) with (S c + j + q * n) by lia.
  rewrite Nat.Div0.mod_add, Nat.mod_small by lia. lia.
Qed.

Lemma length_row chans o : length (row chans o) = length chans.
Proof. unfold row. by rewrite length_fmap. Qed.

Lemma length_interleave chans L :
  length (interleave chans L) = L * length chans.
Proof.
  unfold interleave. induction L as [|L IH]; [done |].
  rewrite seq_S, fmap_app, concat_app, length_app, IH. simpl.
  rewrite app_nil_r, length_row. lia.
Qed.

(** Deinterleaving an interleaved sequence gives back each channel. *)
Lemma samples_mod_interleave (chans : list (list Z)) L c ch :
  Forall (λ ch, length ch = L) chans →
  chans !! c = Some ch →
  samples_mod (length chans) c (interleave chans L) = ch.
Proof.
  intros Hall Hc. rewrite samples_mod_pick.
  assert (length ch = L) as HL by (by eapply (Forall_lookup_1 _ _ _ _ Hall)).
  assert (∀ m, m ≤ L →
    pick (length chans) c 0 (interleave chans m) = take m ch) as Hm.
  { induction m as [|m IH]; intros Hle; [by rewrite take_0 |].
    unfold interleave in *.
    rewrite seq_S, fmap_app, concat_app, pick_app, IH by lia. simpl.
    rewrite app_nil_r.
    change (concat (row chans <$> seq 0 m)) with (interleave chans m).
    rewrite length_interleave.
    destruct (lookup_lt_is_Some_2 ch m) as [x Hx]; [lia |].
    rewrite (pick_row _ c m (row chans m) x).
    - by rewrite (take_S_r ch m x).
    - apply length_row.
    - unfold row. by rewrite list_lookup_fmap, Hc; simpl; rewrite Hx. }
  rewrite Hm by done. apply take_ge. lia.
Qed.

(** ** NewClipFromWave *)

Lemma chans_ok_fresh h N :
  chans_ok (h ++ replicate N []) (fresh_chans (length h) N).
Proof.
  split.
  - apply Forall_forall. intros u (i & -> & Hi)%list_elem_of_fmap.
    apply elem_of_seq in Hi. split; [done |]. exists []. simpl.
    split; [| lia].
    rewrite lookup_app_r by lia.
    apply lookup_replicate_2. lia.
  - unfold fresh_chans. rewrite <- list_fmap_compose.
    replace (arr ∘ (λ i, mkSlice (length h + i) 0 0 0))
      with (Nat.add (length h)) by done.
    rewrite fmap_add_seq. apply NoDup_seq.
Qed.

Lemma deinterlace_step h flat rate (n : Z) k x c hk :
  (0 < n)%Z →
  flat !! k = Some x →
  deinterlace_inv h flat rate (Z.to_nat n) k c hk →
  returns
    (if (n =? 0)%Z then throw DivideByZero else
     let j := Z.rem (Z.of_nat k) n in
     let! ch := chan (Samples c) j in
     let! ch := append growslice ch [x] in
     let! l := set_chan (Samples c) j ch in
     ret (set_Samples c l)) hk
    (deinterlace_inv h flat rate (Z.to_nat n) (S k)).
Proof.
  intros Hn Hx (HName & HRate & HN & Hok & Hviews & Hfr & Harrs & Hlen).
  set (N := Z.to_nat n) in *.
  replace (n =? 0)%Z with false by (symmetry; apply Z.eqb_neq; lia).
  assert (Z.rem (Z.of_nat k) n = Z.of_nat (k `mod` N)) as ->.
  { rewrite Z.rem_mod_nonneg by lia. rewrite Nat2Z.inj_mod. f_equal. lia. }
  assert (k `mod` N < N) as Hj by (apply Nat.mod_upper_bound; lia).
  destruct (lookup_lt_is_Some_2 (Samples c) (k `mod` N)) as [ch Hch];
    [lia |].
  cbv zeta.
  rewrite (chan_spec _ _ _ Hch). apply returns_bind, returns_ret.
  destruct (append_chan (Samples c) (k `mod` N) ch [x] hk Hok Hch)
    as (ch' & h' & Happ & Hle' & Hok' & Hviews' & Harr & Hframe).
  apply returns_bind. eapply returns_eq; [exact Happ |].
  rewrite set_chan_spec by lia. apply returns_bind, returns_ret.
  apply returns_ret. unfold deinterlace_inv, channels in *.
  cbn [set_Samples Samples Name SampleRate].
  assert (length h ≤ arr ch) as Hch_arr
    by (by eapply Harrs, list_elem_of_lookup_2).
  apply heap_le_length in Hle'.
  split; [done |]. split; [done |].
  split; [by rewrite length_insert |]. split; [done |].
  split; [| split; [| split]].
  - rewrite Hviews', Hviews.
    rewrite (take_S_r flat k x Hx).
    apply list_eq. intros i.
    destruct (decide (i < N)) as [Hi|Hi].
    + rewrite list_lookup_fmap, lookup_seq_lt by done. simpl.
      rewrite samples_mod_snoc, length_take_le
        by (apply lookup_lt_Some in Hx; lia).
      destruct (decide (k `mod` N = i)) as [<-|Hne].
      * rewrite list_lookup_insert_eq
          by (by rewrite length_fmap, length_seq).
        do 2 f_equal.
        pose proof (f_equal (.!! (k `mod` N)) Hviews) as E. simpl in E.
        rewrite !list_lookup_fmap, Hch, lookup_seq_lt in E by done.
        by simplify_eq/=.
      * rewrite list_lookup_insert_ne by done.
        rewrite list_lookup_fmap, lookup_seq_lt by done. simpl.
        by rewrite app_nil_r.
    + rewrite !lookup_ge_None_2; [done | |].
      * rewrite length_fmap, length_seq. lia.
      * rewrite length_insert, length_fmap, length_seq. lia.
  - intros i Hi. rewrite <- (Hfr i Hi). apply Hframe; lia.
  - intros u (i & Hi)%list_elem_of_lookup_1.
    apply list_lookup_insert_Some in Hi as [(_ & <- & _)|(_ & Hi)].
    + destruct Harr as [->| ->]; lia.
    + by eapply Harrs, list_elem_of_lookup_2.
  - lia.
Qed.

(** Decoding a container that opened without an error and has a positive
    channel count: the clip returned has that many channels and the sample
    rate of the container, channel [ch] holds the flat samples at the
    indices congruent to [ch] modulo the channel count, and its name is
    empty.  Arrays that existed before are untouched. *)
Lemma NewClipFromWave_spec (fname : string) (w : wave.File) (h : heap) :
  wave_OpenFile fname = (w, None) →
  (0 < wave.NumChannels (wave.Header w))%Z →
  let N := Z.to_nat (wave.NumChannels (wave.Header w)) in
  ∃ c h',
    NewClipFromWave growslice wave_OpenFile fname h = Return (c, None) h' ∧
    Name c = "" ∧
    SampleRate c = wave.SampleRate (wave.Header w) ∧
    length (Samples c) = N ∧
    chans_ok h' (Samples c) ∧
    channels h' c = (λ ch, samples_mod N ch (wave.Samples w)) <$> seq 0 N ∧
    (∀ i, i < length h → h' !! i = h !! i) ∧
    (∀ u, u ∈ Samples c → length h ≤ arr u).
Proof.
  intros Hopen Hn N.
  assert (returns (NewClipFromWave growslice wave_OpenFile fname) h
    (λ r h', r.2 = None ∧
       deinterlace_inv h (wave.Samples w) (wave.SampleRate (wave.Header w))
         N (length (wave.Samples w)) r.1 h')) as Hret.
  { unfold NewClipFromWave. rewrite Hopen.
    apply returns_bind.
    eapply returns_eq; [apply NewClip_spec; lia |].
    apply returns_bind. eapply returns_mono.
    - apply (for_range_inv
        (deinterlace_inv h (wave.Samples w)
           (wave.SampleRate (wave.Header w)) N)).
      + unfold deinterlace_inv, channels.
        cbn [set_SampleRate Samples Name SampleRate].
        split; [done |]. split; [done |].
        split; [apply length_fresh_chans |].
        split; [apply chans_ok_fresh |].
        split; [| split; [| split]].
        * unfold fresh_chans. rewrite <- list_fmap_compose.
          apply list_fmap_ext. intros i x _. done.
        * intros i Hi. by apply lookup_app_l.
        * intros u (i & -> & Hi)%list_elem_of_fmap. simpl. lia.
        * rewrite length_app. lia.
      + intros k x c hk Hx Hinv. rewrite Z.add_0_l.
        by apply deinterlace_step.
    - intros c h' Hinv. by apply returns_ret. }
  apply returns_inv in Hret as ([c e] & h' & Heq & He & Hinv).
  simpl in He, Hinv. subst e.
  destruct Hinv as (HName & HRate & HN & Hok & Hviews & Hfr & Harrs & _).
  exists c, h'. rewrite firstn_all in Hviews. done.
Qed.

(** ** NewWaveFromClip *)

Lemma interleave_S chans o :
  interleave chans (S o) = interleave chans o ++ row chans o.
Proof.
  unfold interleave. rewrite seq_S, fmap_app, concat_app. simpl.
  by rewrite app_nil_r.
Qed.

(** Encoding a clip with a first channel that no channel is shorter than:
    the container gets the channel count and the sample rate, converted to
    [int16] and [int32], and the interleaved samples; the store is only
    read. *)
Lemma NewWaveFromClip_spec (c : Clip) (s0 : slice) (h : heap) :
  Samples c !! 0 = Some s0 →
  Forall (slice_ok h) (Samples c) →
  Forall (λ ch, len s0 ≤ len ch) (Samples c) →
  NewWaveFromClip c h =
    Return
      (wave.mkFile
         (if negb (strings_Contains (Name c) ".wav") then Name c +:+ ".wav"
          else Name c)
         (wave.mkHeader (wrap16 (Z.of_nat (length (Samples c))))
                        (wrap32 (SampleRate c)))
         (interleave (channels h c) (len s0)))
      h.
Proof.
  intros H0 Hok Hlen. apply returns_eq_inv. unfold NewWaveFromClip.
  set (fn := if negb _ then _ else _).
  set (hdr := wave.mkHeader _ _).
  rewrite (chan_0 _ _ H0). apply returns_bind, returns_ret.
  apply returns_bind. eapply returns_mono.
  - apply (for_up_inv (λ o w hk,
      hk = h ∧ w = wave.mkFile fn hdr (interleave (channels h c) o))).
    + done.
    + intros o w hk Ho [-> ->]. rewrite Z.add_0_l.
      eapply returns_mono.
      * apply (for_up_inv (λ k w hk,
          hk = h ∧
          w = wave.mkFile fn hdr
                (interleave (channels h c) o ++
                 take k (row (channels h c) o)))).
        -- split; [done |]. by rewrite take_0, app_nil_r.
        -- intros k w hk Hk [-> ->]. rewrite Z.add_0_l.
           destruct (lookup_lt_is_Some_2 (Samples c) k Hk) as [ch Hch].
           rewrite (chan_spec _ _ _ Hch). apply returns_bind, returns_ret.
           destruct (load_spec h ch (Z.of_nat o)) as (v & Hv & Hvo).
           { by eapply Forall_lookup_1. }
           { apply in_range_nat.
             pose proof (Forall_lookup_1 _ _ _ _ Hlen Hch). simpl in *.
             lia. }
           apply returns_bind. eapply returns_eq; [exact Hv |].
           apply returns_ret. split; [done |].
           unfold wave.set_Samples. simpl. f_equal.
           rewrite <- app_assoc. f_equal.
           rewrite (take_S_r _ _ v); [done |].
           unfold row, channels. rewrite !list_lookup_fmap, Hch. simpl.
           rewrite Nat2Z.id in Hvo. by rewrite Hvo.
      * intros w hk [-> ->]. split; [done |]. simpl.
        rewrite interleave_S, take_ge; [done |].
        unfold channels. by rewrite length_row, length_fmap.
  - intros w hk [-> ->]. by apply returns_ret.
Qed.

(** ** Decoding what was encoded *)

Lemma wrap16_small z : (-32768 ≤ z ≤ 32767)%Z → wrap16 z = z.
Proof. intros Hz. unfold wrap16. rewrite Z.mod_small; lia. Qed.

Lemma wrap32_small z : (-2147483648 ≤ z ≤ 2147483647)%Z → wrap32 z = z.
Proof. intros Hz. unfold wrap32. rewrite Z.mod_small; lia. Qed.

Lemma deinterleave_interleave (chans : list (list Z)) L :
  Forall (λ ch, length ch = L) chans →
  (λ ch, samples_mod (length chans) ch (interleave chans L))
    <$> seq 0 (length chans) = chans.
Proof.
  intros Hall. apply list_eq. intros i. rewrite list_lookup_fmap.
  destruct (chans !! i) as [ch|] eqn:Hi.
  - rewrite lookup_seq_lt by (by eapply lookup_lt_Some). simpl.
    f_equal. by apply samples_mod_interleave.
  - by rewrite lookup_seq_ge by (by apply lookup_ge_None).
Qed.

(** C5: [NewClipFromWave] loses the identifier of the container.  It
    stores the identifier in the clip it holds and then replaces that clip
    by the one [NewClip] returns.  For a container [a.wav] with one channel,
    rate 8 and the single sample 7, the clip returned has one channel
    holding [7] and the rate 8, and its name is empty. *)
Theorem NewClipFromWave_drops_name :
  ∃ c h',
    NewClipFromWave growslice (opens a_wav) "a.wav" [] =
      Return (c, None) h' ∧
    length (Samples c) = 1 ∧
    SampleRate c = 8%Z ∧
    channels h' c = [[7%Z]] ∧
    wave.FileName a_wav = "a.wav" ∧
    Name c = "" ∧ Name c ≠ wave.FileName a_wav.
Proof. eexists _, _. split; [by cbv |]. by repeat split. Qed.

(** C4, amended: for a clip with at least one and at most 32767 channels,
    all of one length that is at least 1, and a sample rate between 1 and
    2147483647, the encoder returns a container, and decoding that container
    yields a clip with the same number of channels, the same samples in
    every channel and the same sample rate. *)
Theorem wave_round_trip (c : Clip) (s0 : slice) (h : heap) :
  Samples c !! 0 = Some s0 →
  Forall (slice_ok h) (Samples c) →
  Forall (λ ch, len ch = len s0) (Samples c) →
  1 ≤ len s0 →
  (Z.of_nat (length (Samples c)) ≤ 32767)%Z →
  (0 < SampleRate c ≤ 2147483647)%Z →
  ∃ w, NewWaveFromClip c h = Return w h ∧
    ∀ fname h0, wave_OpenFile fname = (w, None) →
      ∃ c' h',
        NewClipFromWave growslice wave_OpenFile fname h0 =
          Return (c', None) h' ∧
        length (Samples c') = length (Samples c) ∧
        channels h' c' = channels h c ∧
        SampleRate c' = SampleRate c.
Proof.
  intros H0 Hok Hlen HL Hn Hrate.
  assert (0 < length (Samples c)) as Hpos
    by (by eapply lookup_lt_Some).
  eexists. split.
  { apply (NewWaveFromClip_spec c s0 h H0 Hok).
    eapply Forall_impl; [exact Hlen |]. intros ch Hch. simpl in *. lia. }
  intros fname h0 Hopen.
  assert (wrap16 (Z.of_nat (length (Samples c)))
          = Z.of_nat (length (Samples c))) as E16
    by (apply wrap16_small; lia).
  assert (wrap32 (SampleRate c) = SampleRate c) as E32
    by (apply wrap32_small; lia).
  destruct (NewClipFromWave_spec fname _ h0 Hopen)
    as (c' & h' & Heq & _ & HRate & HN & _ & Hviews & _).
  { simpl. rewrite E16. lia. }
  simpl in HRate, HN, Hviews.
  rewrite E16, Nat2Z.id in HN. rewrite E16, Nat2Z.id in Hviews.
  rewrite E32 in HRate.
  exists c', h'. split; [done |]. split; [done |]. split; [| done].
  rewrite Hviews.
  replace (length (Samples c)) with (length (channels h c))
    by (unfold channels; by rewrite length_fmap).
  apply deinterleave_interleave.
  unfold channels. apply Forall_fmap, Forall_forall. intros ch Hch. simpl.
  rewrite length_view by (by eapply (proj1 (Forall_forall _ _) Hok)).
  by eapply (proj1 (Forall_forall _ _) Hlen).
Qed.

(** A negative channel count in the header makes the decoder abort in
    [NewClip]. *)
Lemma NewClipFromWave_negative (fname : string) (w : wave.File) (h : heap) :
  wave_OpenFile fname = (w, None) →
  (wave.NumChannels (wave.Header w) < 0)%Z →
  NewClipFromWave growslice wave_OpenFile fname h = Panic MakeLenOutOfRange.
Proof.
  intros Hopen Hn. unfold NewClipFromWave. rewrite Hopen.
  apply bind_Panic. unfold NewClip. apply bind_Panic. unfold make_chans.
  by replace (wave.NumChannels (wave.Header w) <? 0)%Z with true
    by (symmetry; by apply Z.ltb_lt).
Qed.

(** ** IsEqual *)

Lemma bind_ret_l {A B} (a : A) (k : A → M B) h : bind (ret a) k h = k a h.
Proof. done. Qed.

(** The loop over the samples of one channel: it runs to its end exactly
    when the two channels agree from offset [i] on, and otherwise returns
    [false] with an error. *)
Lemma IsEqual_samples (t : Clip) (c : nat) (a b : slice) (h : heap) :
  Samples t !! c = Some b →
  slice_ok h a → slice_ok h b → len a = len b →
  ∀ n i, i + n = len a →
    returns
      (for_until n (Z.of_nat i) (λ i,
        let! sample := load a i in
        let! b := chan (Samples t) (Z.of_nat c) in
        let! sample2 := load b i in
        if negb (sample =? sample2)%Z then
          ret (Some (false,
                     varying_values sample sample2 i (Z.of_nat c)))
        else ret None)) h
      (λ r h', h' = h ∧
         (r = None ↔ drop i (view h a) = drop i (view h b)) ∧
         (∀ x, r = Some x → x.1 = false ∧ x.2 ≠ None)).
Proof.
  intros Hb Ha_ok Hb_ok Hlen. induction n as [|n IH]; intros i Hi.
  - apply returns_ret. split; [done |]. split; [| done].
    rewrite !drop_ge by (rewrite length_view by done; lia). done.
  - cbn [for_until].
    destruct (load_spec h a (Z.of_nat i) Ha_ok) as (v & Hv & Hvi);
      [apply in_range_nat; lia |].
    destruct (load_spec h b (Z.of_nat i) Hb_ok) as (v2 & Hv2 & Hv2i);
      [apply in_range_nat; lia |].
    rewrite Nat2Z.id in Hvi, Hv2i.
    apply returns_bind, returns_bind. eapply returns_eq; [exact Hv |].
    apply returns_bind.
    eapply returns_eq; [by rewrite (chan_spec _ _ _ Hb) |].
    apply returns_bind. eapply returns_eq; [exact Hv2 |].
    rewrite (drop_S _ _ _ Hvi), (drop_S _ _ _ Hv2i).
    destruct (Z.eqb_spec v v2) as [->|Hne]; cbn [negb]; apply returns_ret.
    + replace (Z.of_nat i + 1)%Z with (Z.of_nat (S i)) by lia.
      eapply returns_mono; [apply (IH (S i)); lia |].
      intros r h' (-> & Hiff & Hsome). split; [done |]. split; [| done].
      rewrite Hiff. split; [by intros -> | by intros [= ->]].
    + apply returns_ret. split; [done |].
      split; [split; [done | by intros [= ?]] |].
      by intros x [= <-].
Qed.

(** The loop over the channels. *)
Lemma IsEqual_channels (s t : Clip) (h : heap) :
  length (Samples s) = length (Samples t) →
  Forall (slice_ok h) (Samples s) →
  Forall (slice_ok h) (Samples t) →
  ∀ n k, k + n = length (Samples s) →
    returns
      (for_until n (Z.of_nat k) (λ chanNum,
        let! a := chan (Samples s) chanNum in
        let! b := chan (Samples t) chanNum in
        if negb (len a =? len b) then
          ret (Some (false, varying_samples (Z.of_nat (len a))
                                            (Z.of_nat (len b)) chanNum))
        else
          for_until (len a) 0 (λ i,
            let! sample := load a i in
            let! b := chan (Samples t) chanNum in
            let! sample2 := load b i in
            if negb (sample =? sample2)%Z then
              ret (Some (false, varying_values sample sample2 i chanNum))
            else ret None))) h
      (λ r h', h' = h ∧
         (r = None ↔ drop k (channels h s) = drop k (channels h t)) ∧
         (∀ x, r = Some x → x.1 = false ∧ x.2 ≠ None)).
Proof.
  intros Hlen Hs Ht. induction n as [|n IH]; intros k Hk.
  - apply returns_ret. split; [done |]. split; [| done].
    unfold channels. rewrite !drop_ge by (rewrite length_fmap; lia). done.
  - cbn [for_until].
    destruct (lookup_lt_is_Some_2 (Samples s) k) as [a Ha]; [lia |].
    destruct (lookup_lt_is_Some_2 (Samples t) k) as [b Hb]; [lia |].
    assert (slice_ok h a) as Ha_ok
      by (eapply Forall_lookup_1; [exact Hs | exact Ha]).
    assert (slice_ok h b) as Hb_ok
      by (eapply Forall_lookup_1; [exact Ht | exact Hb]).
    assert (channels h s !! k = Some (view h a)) as Hva
      by (unfold channels; by rewrite list_lookup_fmap, Ha).
    assert (channels h t !! k = Some (view h b)) as Hvb
      by (unfold channels; by rewrite list_lookup_fmap, Hb).
    rewrite (drop_S _ _ _ Hva), (drop_S _ _ _ Hvb).
    apply returns_bind, returns_bind.
    eapply returns_eq; [by rewrite (chan_spec _ _ _ Ha) |].
    apply returns_bind.
    eapply returns_eq; [by rewrite (chan_spec _ _ _ Hb) |].
    destruct (Nat.eqb_spec (len a) (len b)) as [Hab|Hab]; cbn [negb].
    + eapply returns_mono;
        [apply (IsEqual_samples t k a b h Hb Ha_ok Hb_ok Hab (len a) 0);
         lia |].
      intros r' h' (-> & Hiff' & Hsome'). rewrite !drop_0 in Hiff'.
      destruct r' as [x|].
      * apply returns_ret. split; [done |]. split.
        -- split; [done |]. intros [= E _]. by apply Hiff' in E.
        -- intros y [= <-]. by apply Hsome'.
      * replace (Z.of_nat k + 1)%Z with (Z.of_nat (S k)) by lia.
        eapply returns_mono; [apply (IH (S k)); lia |].
        intros r h' (-> & Hiff & Hsome). split; [done |]. split; [| done].
        rewrite Hiff. split.
        -- intros ->. f_equal. by apply Hiff'.
        -- by intros [= _ ->].
    + apply returns_ret, returns_ret. split; [done |].
      split; [split; [done |] |].
      * intros [= E _]. apply (f_equal length) in E.
        rewrite !length_view in E by done. done.
      * by intros x [= <-].
Qed.

(** X1: on clips whose headers are well formed, [IsEqual] returns without
    touching the store; its boolean is [true] exactly when the two clips
    have the same channels with the same samples (names and sample rates are
    not looked at), and it returns a nil error exactly when the boolean is
    [true]. *)
Theorem IsEqual_decides (s t : Clip) (h : heap) :
  Forall (slice_ok h) (Samples s) →
  Forall (slice_ok h) (Samples t) →
  ∃ b e, IsEqual s t h = Return (b, e) h ∧
    (b = true ↔ channels h s = channels h t) ∧
    (b = true ↔ e = None).
Proof.
  intros Hs Ht. unfold IsEqual.
  destruct (Nat.eqb_spec (length (Samples s)) (length (Samples t)))
    as [Hlen|Hlen]; cbn [negb].
  - pose proof (IsEqual_channels s t h Hlen Hs Ht (length (Samples s)) 0
                  eq_refl) as Hret.
    apply returns_inv in Hret as (r & h' & Hr & -> & Hiff & Hsome).
    rewrite !drop_0 in Hiff. change (Z.of_nat 0) with 0%Z in Hr.
    rewrite (bind_Return _ _ _ _ _ Hr).
    destruct r as [[b e]|].
    + destruct (Hsome _ eq_refl) as [Hb He]. simpl in Hb, He. subst b.
      exists false, e. split; [done |]. split; split; try done.
      intros E. by apply Hiff in E.
    + exists true, None. split; [done |].
      split; split; try done. intros _. by apply Hiff.
  - eexists false, _. split; [done |]. split; split; try done.
    intros E. apply (f_equal length) in E. unfold channels in E.
    by rewrite !length_fmap in E.
Qed.

(** ** Reverse *)

(** The exchange loop on the window [i, i + m) of a channel, [m] being the
    number of samples between the two indices, both included: the array of
    the channel ends with that window mirrored, everything else in the
    store is as before. *)
Lemma Reverse_loop_spec (ch : slice) :
  ∀ fuel i m h a,
    slice_ok h ch → h !! arr ch = Some a →
    i + m + i = len ch →
    m ≤ 2 * fuel + 1 →
    returns (Reverse_loop fuel (Z.of_nat i) (Z.of_nat (i + m) - 1) ch) h
      (λ _ h',
         heap_le h h' ∧ (∀ q, q ≠ arr ch → h' !! q = h !! q) ∧
         ∃ a', h' !! arr ch = Some a' ∧
           ∀ p, a' !! p =
                if decide (off ch + i ≤ p < off ch + i + m)
                then a !! (2 * off ch + 2 * i + m - 1 - p)
                else a !! p).
Proof.
  assert (∀ i m (h : heap) a, h !! arr ch = Some a →
    m ≤ 1 →
    heap_le h h ∧ (∀ q, q ≠ arr ch → h !! q = h !! q) ∧
    ∃ a', h !! arr ch = Some a' ∧
      ∀ p, a' !! p =
           if decide (off ch + i ≤ p < off ch + i + m)
           then a !! (2 * off ch + 2 * i + m - 1 - p)
           else a !! p) as Hdone.
  { intros i m h a Ha Hm. split; [apply heap_le_refl |]. split; [done |].
    exists a. split; [done |]. intros p. case_decide; [| done].
    f_equal. lia. }
  induction fuel as [|fuel IH]; intros i m h a Hok Ha Hsym Hm.
  - apply returns_ret. apply Hdone; [done | lia].
  - cbn [Reverse_loop].
    destruct (Z.ltb_spec (Z.of_nat i) (Z.of_nat (i + m) - 1)) as [Hlt|Hge].
    2:{ apply returns_ret. apply Hdone; [done | lia]. }
    pose proof Hok as (Hlc & a0 & Ha0 & Hb).
    assert (a0 = a) as -> by congruence. clear Ha0.
    replace (Z.of_nat (i + m) - 1)%Z with (Z.of_nat (i + m - 1)) by lia.
    set (j := i + m - 1).
    destruct (load_spec h ch (Z.of_nat i) Hok) as (tmp & Htmp & Htmpv);
      [apply in_range_nat; lia |].
    destruct (load_spec h ch (Z.of_nat j) Hok) as (x & Hx & Hxv);
      [apply in_range_nat; lia |].
    rewrite Nat2Z.id in Htmpv, Hxv.
    rewrite (lookup_view h ch a) in Htmpv by (done || lia).
    rewrite (lookup_view h ch a) in Hxv by (done || lia).
    apply returns_bind. eapply returns_eq; [exact Htmp |].
    apply returns_bind. eapply returns_eq; [exact Hx |].
    apply returns_bind.
    eapply returns_eq; [apply store_spec, in_range_nat; lia |].
    apply returns_bind.
    eapply returns_eq; [apply store_spec, in_range_nat; lia |].
    rewrite !Nat2Z.id.
    set (h1 := alter _ _ h). set (h2 := alter _ _ h1).
    set (a2 := <[off ch + j := tmp]> (<[off ch + i := x]> a)).
    assert (h2 !! arr ch = Some a2) as Ha2.
    { unfold h2, h1. by rewrite !list_lookup_alter_eq, Ha. }
    assert (heap_le h h2) as Hle.
    { eapply heap_le_trans; apply heap_le_alter; intros ?;
        apply length_insert. }
    replace (Z.of_nat i + 1)%Z with (Z.of_nat (S i)) by lia.
    replace (Z.of_nat j - 1)%Z with (Z.of_nat (S i + (m - 2)) - 1)%Z
      by lia.
    eapply returns_mono.
    { apply (IH (S i) (m - 2) h2 a2); [| done | lia | lia].
      by eapply slice_ok_le. }
    intros [] h' (Hle' & Hfr' & a' & Ha' & Hlook).
    split; [by eapply heap_le_trans |]. split.
    { intros q Hq. rewrite (Hfr' q Hq). unfold h2, h1.
      by rewrite !list_lookup_alter_ne. }
    exists a'. split; [done |]. intros p. rewrite Hlook. unfold a2.
    assert (off ch + j < length a) by lia.
    destruct (decide (p = off ch + i)) as [->|Hpi].
    { rewrite decide_False by lia. rewrite decide_True by lia.
      rewrite list_lookup_insert_ne by lia.
      rewrite list_lookup_insert_eq by lia.
      rewrite <- Hxv. f_equal. lia. }
    destruct (decide (p = off ch + j)) as [->|Hpj].
    { rewrite decide_False by lia. rewrite decide_True by lia.
      rewrite list_lookup_insert_eq by (rewrite length_insert; lia).
      rewrite <- Htmpv. f_equal. lia. }
    case_decide.
    + rewrite decide_True by lia.
      rewrite !list_lookup_insert_ne by lia. f_equal. lia.
    + rewrite decide_False by lia.
      by rewrite !list_lookup_insert_ne by lia.
Qed.

(** Reversing one channel. *)
Lemma Reverse_chan (ch : slice) (h : heap) :
  slice_ok h ch →
  returns (Reverse_loop (len ch) 0 (Z.of_nat (len ch) - 1) ch) h
    (λ _ h',
       heap_le h h' ∧ (∀ q, q ≠ arr ch → h' !! q = h !! q) ∧
       view h' ch = reverse (view h ch)).
Proof.
  intros Hok. pose proof Hok as (Hlc & a & Ha & Hb).
  eapply returns_mono.
  { apply (Reverse_loop_spec ch (len ch) 0 (len ch) h a); (done || lia). }
  intros [] h' (Hle & Hfr & a' & Ha' & Hlook).
  split; [done |]. split; [done |].
  assert (slice_ok h' ch) as Hok' by (by eapply slice_ok_le).
  apply list_eq. intros k.
  destruct (decide (k < len ch)) as [Hk|Hk].
  - rewrite reverse_lookup by (by rewrite length_view).
    rewrite length_view by done.
    rewrite (lookup_view h' ch a'), (lookup_view h ch a) by (done || lia).
    rewrite Hlook, decide_True by lia. f_equal. lia.
  - rewrite !lookup_ge_None_2; [done | |].
    + rewrite length_reverse, length_view by done. lia.
    + rewrite length_view by done. lia.
Qed.

(** [Reverse] on channels in pairwise distinct arrays reverses every
    channel and changes no other array. *)
Lemma Reverse_spec (c : Clip) (h : heap) :
  chans_ok h (Samples c) →
  ∃ h', Reverse c h = Return tt h' ∧
    heap_le h h' ∧
    channels h' c = reverse <$> channels h c ∧
    (∀ q, q ∉ arr <$> Samples c → h' !! q = h !! q).
Proof.
  intros [Hok Hnd].
  assert (returns (Reverse c) h (λ _ h',
    heap_le h h' ∧
    (∀ q, q ∉ arr <$> Samples c → h' !! q = h !! q) ∧
    ∀ j ch, Samples c !! j = Some ch →
      view h' ch =
        if decide (j < length (Samples c)) then reverse (view h ch)
        else view h ch)) as Hret.
  { unfold Reverse.
    pose (I := λ (k : nat) (_ : unit) (hk : heap),
      heap_le h hk ∧
      (∀ q, q ∉ arr <$> Samples c → hk !! q = h !! q) ∧
      ∀ j ch, Samples c !! j = Some ch →
        view hk ch =
          if decide (j < k) then reverse (view h ch) else view h ch).
    apply (for_up_inv I); unfold I.
    - split; [apply heap_le_refl |]. split; [done |].
      intros j ch _. by rewrite decide_False by lia.
    - intros k [] hk Hk (Hle & Hfr & Hviews). rewrite Z.add_0_l.
      destruct (lookup_lt_is_Some_2 (Samples c) k Hk) as [ch Hch].
      rewrite (chan_spec _ _ _ Hch). apply returns_bind, returns_ret.
      assert (slice_ok hk ch) as Hch_ok.
      { eapply slice_ok_le; [exact Hle |].
        eapply Forall_lookup_1; [exact Hok | exact Hch]. }
      eapply returns_mono; [by apply Reverse_chan |].
      intros [] h' (Hle' & Hfr' & Hview').
      split; [by eapply heap_le_trans |]. split.
      + intros q Hq. rewrite <- (Hfr q Hq). apply Hfr'.
        intros ->. apply Hq, list_elem_of_fmap_2.
        by eapply list_elem_of_lookup_2.
      + intros j u Hu. destruct (decide (j = k)) as [->|Hjk].
        * simplify_eq. rewrite decide_True by lia.
          rewrite Hview', (Hviews k ch Hch).
          by rewrite decide_False by lia.
        * rewrite (view_frame hk h' u).
          -- rewrite (Hviews j u Hu).
             destruct (decide (j < k)).
             ++ by rewrite decide_True by lia.
             ++ by rewrite decide_False by lia.
          -- apply Hfr'. intros E. apply Hjk.
             eapply (NoDup_lookup (arr <$> Samples c)); [done | |].
             ++ by rewrite list_lookup_fmap, Hu.
             ++ by rewrite list_lookup_fmap, Hch; simpl; rewrite E. }
  apply returns_inv in Hret as ([] & h' & Heq & Hle & Hfr & Hviews).
  exists h'. split; [done |]. split; [done |]. split; [| done].
  unfold channels. rewrite <- list_fmap_compose.
  apply list_fmap_ext. intros j ch Hch. simpl.
  rewrite (Hviews j ch Hch).
  by rewrite decide_True by (by eapply lookup_lt_Some).
Qed.

(** X2: on a clip whose channels lie in pairwise distinct arrays,
    [Reverse] returns (also when the clip has no channel or empty
    channels), every channel holds afterwards its former samples in
    reverse order, and no array other than those of the channels has
    changed. *)
Theorem Reverse_reverses (c : Clip) (h : heap) :
  chans_ok h (Samples c) →
  ∃ h', Reverse c h = Return tt h' ∧
    channels h' c = reverse <$> channels h c ∧
    (∀ q, q ∉ arr <$> Samples c → h' !! q = h !! q).
Proof.
  intros Hok. destruct (Reverse_spec c h Hok) as (h' & H1 & _ & H2 & H3).
  by exists h'.
Qed.

(** X3: reversing twice gives every channel its original samples back. *)
Theorem Reverse_twice (c : Clip) (h : heap) :
  chans_ok h (Samples c) →
  ∃ h1 h2, Reverse c h = Return tt h1 ∧ Reverse c h1 = Return tt h2 ∧
    channels h2 c = channels h c.
Proof.
  intros Hok.
  destruct (Reverse_spec c h Hok) as (h1 & H1 & Hle & Hv1 & _).
  destruct (Reverse_spec c h1) as (h2 & H2 & _ & Hv2 & _).
  { destruct Hok as [Hok Hnd]. split; [| done].
    eapply Forall_impl; [exact Hok |]. intros ch. by apply slice_ok_le. }
  exists h1, h2. split; [done |]. split; [done |].
  rewrite Hv2, Hv1, <- list_fmap_compose.
  rewrite <- (list_fmap_id (channels h c)) at 2.
  apply list_fmap_ext. intros i v _. apply reverse_involutive.
Qed.

(** ** More on NewClip, Slice and Split *)

(** X4: [NewClip] refuses a negative channel count with a panic; for a
    count [0 <= n <= 32767], the counts the header of a container can name,
    it returns a clip of [n] empty channels lying in [n] fresh, pairwise
    distinct arrays, with an empty name and the sample rate 0, and leaves
    the arrays that existed untouched. *)
Theorem NewClip_channels (n : Z) (h : heap) :
  ((n < 0)%Z → NewClip n h = Panic MakeLenOutOfRange) ∧
  ((0 ≤ n ≤ 32767)%Z →
   ∃ c h', NewClip n h = Return c h' ∧
     channels h' c = replicate (Z.to_nat n) [] ∧
     Name c = "" ∧ SampleRate c = 0%Z ∧
     chans_ok h' (Samples c) ∧
     (∀ u, u ∈ Samples c → length h ≤ arr u) ∧
     (∀ q, q < length h → h' !! q = h !! q)).
Proof.
  split.
  - intros Hn. unfold NewClip, make_chans.
    by replace (n <? 0)%Z with true by (symmetry; by apply Z.ltb_lt).
  - intros Hn. eexists _, _. split; [apply NewClip_spec; lia |].
    cbn [Samples Name SampleRate].
    split; [| split; [done | split; [done | split; [| split]]]].
    + unfold channels, fresh_chans. cbn [Samples].
      rewrite <- list_fmap_compose. apply list_eq. intros i.
      rewrite list_lookup_fmap.
      destruct (decide (i < Z.to_nat n)) as [Hi|Hi].
      * by rewrite lookup_seq_lt, lookup_replicate_2 by done.
      * rewrite lookup_seq_ge by lia. symmetry.
        apply lookup_replicate_None. lia.
    + apply chans_ok_fresh.
    + intros u (i & -> & Hi)%list_elem_of_fmap. simpl. lia.
    + intros q Hq. by apply lookup_app_l.
Qed.

Lemma bind_ext {A B} (m : M A) (k1 k2 : A → M B) h :
  (∀ a h', k1 a h' = k2 a h') → bind m k1 h = bind m k2 h.
Proof. intros Hk. unfold bind. by destruct (m h). Qed.

Lemma Slice_clamp (s : Clip) (s0 : slice) (lo e : Z) (h : heap) :
  Samples s !! 0 = Some s0 →
  (Z.of_nat (len s0) < e)%Z →
  Slice s lo e h = Slice s lo (Z.of_nat (len s0)) h.
Proof.
  intros H0 He. unfold Slice. apply bind_ext. intros t h1.
  rewrite (chan_0 _ _ H0), !bind_ret_l. cbv zeta.
  replace (Z.of_nat (len s0) <? e)%Z with true
    by (symmetry; by apply Z.ltb_lt).
  by rewrite Z.ltb_irrefl.
Qed.

(** [Slice] with the end index clamped to the length of the first
    channel. *)
Lemma Slice_spec_clamped (s : Clip) (s0 : slice) (lo e : Z) (h : heap) :
  Samples s !! 0 = Some s0 →
  Forall (slice_ok h) (Samples s) →
  Forall (λ ch, len s0 ≤ len ch) (Samples s) →
  (0 ≤ lo ≤ Z.min e (Z.of_nat (len s0)))%Z →
  let hi := Z.to_nat (Z.min e (Z.of_nat (len s0))) in
  Slice s lo e h =
    Return (mkClip (window (Z.to_nat lo) (hi - Z.to_nat lo) <$> Samples s)
                   "" 0, None)
           (h ++ replicate (length (Samples s)) []).
Proof.
  intros H0 Hok Hlen Hlo hi.
  assert (Forall (λ ch, hi ≤ cap ch) (Samples s)) as Hcap.
  { apply Forall_forall. intros ch Hch.
    pose proof (proj1 (Forall_forall _ _) Hok ch Hch) as [? _].
    pose proof (proj1 (Forall_forall _ _) Hlen ch Hch). simpl in *.
    unfold hi. lia. }
  destruct (Z.lt_ge_cases (Z.of_nat (len s0)) e) as [He|He].
  - rewrite (Slice_clamp s s0 lo e h H0 He).
    rewrite <- (Z2Nat.id lo) at 1 by lia.
    replace hi with (len s0) in * by (unfold hi; lia).
    apply (Slice_spec s s0); (done || lia).
  - rewrite <- (Z2Nat.id lo) at 1 by lia.
    replace e with (Z.of_nat hi) at 1 by (unfold hi; lia).
    apply (Slice_spec s s0); (done || unfold hi; lia).
Qed.

(** X5: [Slice] returns views, not copies.  For a clip with a first
    channel that no channel is shorter than and a start index between 0 and
    the end index, the end index being first cut down to the length of the
    first channel, the clip returned has an empty name and the sample rate
    0, and in every later store each of its channels reads as the window
    [start, end) of the matching channel of the receiver: whatever is
    stored into that window of the receiver shows in the slice, and the
    other way round. *)
Theorem Slice_is_view (s : Clip) (s0 : slice) (lo e : Z) (h : heap) :
  Samples s !! 0 = Some s0 →
  Forall (slice_ok h) (Samples s) →
  Forall (λ ch, len s0 ≤ len ch) (Samples s) →
  (0 ≤ lo ≤ Z.min e (Z.of_nat (len s0)))%Z →
  let hi := Z.to_nat (Z.min e (Z.of_nat (len s0))) in
  ∃ t h', Slice s lo e h = Return (t, None) h' ∧
    Name t = "" ∧ SampleRate t = 0%Z ∧
    ∀ h2, heap_le h' h2 →
      channels h2 t =
        (λ v, take (hi - Z.to_nat lo) (drop (Z.to_nat lo) v))
          <$> channels h2 s.
Proof.
  intros H0 Hok Hlen Hlo hi.
  eexists _, _. split; [by apply Slice_spec_clamped |].
  split; [done |]. split; [done |].
  intros h2 Hle. unfold channels. cbn [Samples].
  rewrite <- !list_fmap_compose. apply list_fmap_ext.
  intros i ch Hch. simpl.
  pose proof (Forall_lookup_1 _ _ _ _ Hlen Hch) as Hl. simpl in Hl.
  apply view_window; [| unfold hi; lia].
  eapply slice_ok_le; [| eapply Forall_lookup_1; [exact Hok | exact Hch]].
  eapply heap_le_trans; [apply heap_le_app | exact Hle].
Qed.

(** X6: [Slice] has no error path: on a clip with a first channel, a start
    index that is negative or beyond the (clamped) end index makes the
    slice expression of the first channel panic. *)
Theorem Slice_bad_start_panics (s : Clip) (s0 : slice) (lo e : Z)
    (h : heap) :
  Samples s !! 0 = Some s0 →
  (lo < 0 ∨ Z.min e (Z.of_nat (len s0)) < lo)%Z →
  Slice s lo e h = Panic SliceBoundsOutOfRange.
Proof.
  intros H0 Hlo. unfold Slice.
  erewrite bind_Return by (apply NewClip_spec; lia). cbv beta.
  erewrite bind_Return by (by rewrite (chan_0 _ _ H0)). cbv beta zeta.
  apply bind_Panic.
  destruct (Samples s) as [|s0' rest] eqn:Es; [done |].
  simplify_eq/=. apply bind_Panic.
  erewrite bind_Return by reflexivity. cbv beta.
  apply bind_Panic. unfold reslice.
  match goal with |- (if ?b then _ else _) _ = _ =>
    replace b with false; [done |] end.
  symmetry. apply not_true_is_false.
  rewrite !andb_true_iff, !Z.leb_le.
  destruct (Z.ltb_spec (Z.of_nat (len s0)) e); lia.
Qed.

(** X7: every division [Split] returns is a view on the clip.  For a clip
    with a first channel that no channel is shorter than and
    [0 < n <= 32767], [Split] returns [n] clips and no error; division [i]
    has an empty name, the sample rate 0 and, for every channel, the samples
    [i * step, (i + 1) * step) of that channel of the clip, where [step] is
    the length of the first channel divided by [n]. *)
Theorem Split_divisions (c : Clip) (s0 : slice) (n : Z) (h : heap) :
  Samples c !! 0 = Some s0 →
  (0 < n ≤ 32767)%Z →
  Forall (slice_ok h) (Samples c) →
  Forall (λ ch, len s0 ≤ len ch) (Samples c) →
  let N := Z.to_nat n in
  let step := len s0 / N in
  ∃ ts h', Split c n h = Return (Some <$> ts, None) h' ∧
    length ts = N ∧
    ∀ i t, ts !! i = Some t →
      Name t = "" ∧ SampleRate t = 0%Z ∧
      channels h' t =
        (λ v, take step (drop (step * i) v)) <$> channels h c.
Proof.
  intros H0 Hn Hok Hlen N step.
  assert (N ≠ 0) as HN by lia.
  assert (step * N ≤ len s0) as Hstep
    by (rewrite Nat.mul_comm; by apply Nat.Div0.mul_div_le).
  set (h' := h ++ replicate (N * length (Samples c)) []).
  assert (Forall (λ ch, len s0 ≤ cap ch) (Samples c)) as Hcap.
  { apply Forall_forall. intros ch Hch.
    pose proof (proj1 (Forall_forall _ _) Hok ch Hch) as [? _].
    pose proof (proj1 (Forall_forall _ _) Hlen ch Hch). simpl in *. lia. }
  exists (segment c step <$> seq 0 N), h'.
  split; [| split].
  - unfold Split. rewrite (chan_0 _ _ H0).
    erewrite bind_Return by reflexivity.
    replace (n =? 0)%Z with false by (symmetry; apply Z.eqb_neq; lia).
    unfold make_clips.
    replace (n <? 0)%Z with false by (symmetry; apply Z.ltb_ge; lia).
    erewrite bind_Return by reflexivity.
    replace (Z.of_nat (len s0) ÷ n)%Z with (Z.of_nat step).
    2:{ rewrite Z.quot_div_nonneg by lia. unfold step.
        rewrite Nat2Z.inj_div. f_equal. lia. }
    rewrite <- list_fmap_compose.
    by apply (Split_loop_spec c s0 step N H0 Hstep Hcap N 0 h).
  - by rewrite length_fmap, length_seq.
  - intros i t Ht. rewrite list_lookup_fmap in Ht.
    destruct (seq 0 N !! i) as [i'|] eqn:Ei; [| done].
    apply lookup_seq in Ei as [-> Hi]. simplify_eq/=.
    split; [done |]. split; [done |].
    assert (step * i + step ≤ len s0) by nia.
    unfold channels, segment. cbn [Samples].
    rewrite <- !list_fmap_compose. apply list_fmap_ext.
    intros k ch Hch. simpl.
    pose proof (Forall_lookup_1 _ _ _ _ Hlen Hch) as Hl. simpl in Hl.
    assert (slice_ok h ch) as Hch_ok
      by (eapply Forall_lookup_1; [exact Hok | exact Hch]).
    rewrite view_window; [| | lia].
    + unfold h'. by rewrite (view_app_l h _ ch).
    + eapply slice_ok_le; [apply heap_le_app | done].
Qed.

(** ** Appending a clip to itself *)

(** X8: appending a clip to itself doubles every channel.  Source and
    target are then the same clip; each iteration reads the channel it is
    about to extend, and [append] copies the samples before it writes. *)
Theorem Append_self (c : Clip) (h : heap) :
  chans_ok h (Samples c) →
  ∃ c' h', Append growslice c c h = Return (c', None) h' ∧
    Name c' = Name c ∧ SampleRate c' = SampleRate c ∧
    channels h' c' = (λ v, v ++ v) <$> channels h c.
Proof.
  intros Hok.
  pose (I := λ (k : nat) (ck : Clip) (hk : heap),
    Name ck = Name c ∧ SampleRate ck = SampleRate c ∧
    heap_le h hk ∧ chans_ok hk (Samples ck) ∧
    length (Samples ck) = length (Samples c) ∧
    drop k (Samples ck) = drop k (Samples c) ∧
    view hk <$> Samples ck =
      ((λ v, v ++ v) <$> take k (channels h c)) ++ drop k (channels h c) ∧
    (∀ j u, k ≤ j → Samples c !! j = Some u → hk !! arr u = h !! arr u)).
  assert (returns (Append growslice c c) h
    (λ r h', r.2 = None ∧ I (length (Samples c)) r.1 h')) as Hret.
  { unfold Append. rewrite Nat.eqb_refl. cbn [negb].
    apply returns_bind. eapply returns_mono.
    - apply (for_up_inv I); unfold I.
      + repeat (split; [done || apply heap_le_refl |]). done.
      + intros k ck hk Hk (HN & HR & Hle & Hck & Hn & Hdrop & Hviews & Hfr).
        rewrite Z.add_0_l.
        destruct (lookup_lt_is_Some_2 (Samples c) k Hk) as [u Hu].
        assert (Samples ck !! k = Some u) as Hu'.
        { pose proof (f_equal (.!! 0) Hdrop) as E. simpl in E.
          rewrite !lookup_drop, !Nat.add_0_r in E. by rewrite E. }
        assert (view hk u = view h u) as Hvu
          by (apply view_frame; by eapply (Hfr k)).
        assert (channels h c !! k = Some (view h u)) as Hcu
          by (unfold channels; by rewrite list_lookup_fmap, Hu).
        rewrite (chan_spec _ _ _ Hu'). apply returns_bind, returns_ret.
        rewrite (chan_spec _ _ _ Hu). apply returns_bind, returns_ret.
        destruct (append_chan (Samples ck) k u (view hk u) hk Hck Hu')
          as (t' & h' & Happ & Hle' & Hok' & Hviews' & Harr & Hframe).
        apply returns_bind. eapply returns_eq; [exact Happ |].
        rewrite set_chan_spec by lia. apply returns_bind, returns_ret.
        apply returns_ret. cbn [set_Samples Samples Name SampleRate].
        split; [done |]. split; [done |].
        split; [by eapply heap_le_trans |]. split; [done |].
        split; [by rewrite length_insert |].
        split; [| split].
        * rewrite drop_insert_lt by lia.
          replace (S k) with (k + 1) by lia.
          by rewrite <- !drop_drop, Hdrop.
        * rewrite Hviews', Hviews, Hvu.
          rewrite insert_app_drop
            by (rewrite ?length_fmap, ?length_take; unfold channels;
                rewrite ?length_fmap; lia).
          by rewrite (take_S_r _ _ _ Hcu), fmap_app.
        * intros j w Hj Hw. rewrite <- (Hfr j w ltac:(lia) Hw).
          destruct Hok as [Hok Hnd].
          apply Hframe.
          -- intros E. assert (j = k); [| lia].
             eapply (NoDup_lookup (arr <$> Samples c)); [done | |].
             ++ by rewrite list_lookup_fmap, Hw.
             ++ by rewrite list_lookup_fmap, Hu; simpl; rewrite E.
          -- apply heap_le_length in Hle.
             assert (slice_ok h w) as Hw_ok
               by (eapply Forall_lookup_1; [exact Hok | exact Hw]).
             apply slice_ok_lt in Hw_ok. lia.
    - intros ck h' Hinv. by apply returns_ret. }
  apply returns_inv in Hret as ([c' e] & h' & Heq & He & Hinv).
  simpl in He, Hinv. subst e.
  destruct Hinv as (HN & HR & _ & _ & _ & _ & Hviews & _).
  exists c', h'. split; [done |]. split; [done |]. split; [done |].
  unfold channels at 1. rewrite Hviews.
  rewrite take_ge, drop_ge
    by (unfold channels; rewrite length_fmap; lia).
  by rewrite app_nil_r.
Qed.

(** ** What Mix leaves in its receiver *)

Lemma append_in_place (s : slice) (xs : list Z) (h : heap) :
  len s + length xs ≤ cap s →
  append growslice s xs h =
    Return (mkSlice (arr s) (off s) (len s + length xs) (cap s))
           (alter (list_inserts (off s + len s) xs) (arr s) h).
Proof.
  intros Hc. unfold append.
  by replace (len s + length xs <=? cap s) with true
    by (symmetry; by apply Nat.leb_le).
Qed.

Lemma append_realloc (s : slice) (xs : list Z) (h : heap) :
  cap s < len s + length xs →
  ∃ c a, append growslice s xs h =
    Return (mkSlice (length h) 0 (len s + length xs) c) (h ++ [a]).
Proof.
  intros Hc. unfold append.
  replace (len s + length xs <=? cap s) with false
    by (symmetry; by apply Nat.leb_gt).
  by eexists _, _.
Qed.

Lemma view_prefix (h : heap) (s s' : slice) :
  arr s' = arr s → off s' = off s → len s ≤ len s' →
  view h s = take (len s) (view h s').
Proof.
  intros Ea Eo Hl. unfold view. rewrite Ea, Eo, take_take.
  by rewrite Nat.min_l.
Qed.

(** The loop of [mix] on a first operand that is long enough and lies in
    another array than the second. *)
Lemma mix_loop_spec (s t : slice) (h : heap) :
  slice_ok h s → slice_ok h t → len t ≤ len s → arr s ≠ arr t →
  returns
    (for_up (len t) 0 (λ i _,
       let! sample := load t i in
       let! sample2 := load s i in
       store s i (mixed_sample sample sample2)) tt) h
    (λ _ h',
       heap_le h h' ∧ (∀ q, q ≠ arr s → h' !! q = h !! q) ∧
       view h' s =
         zip_with mixed_sample (view h t) (take (len t) (view h s)) ++
         drop (len t) (view h s)).
Proof.
  intros Hs Ht Hlen Hne.
  eapply returns_mono.
  - apply (for_up_inv (λ k _ hk,
      heap_le h hk ∧ (∀ q, q ≠ arr s → hk !! q = h !! q) ∧
      view hk s =
        zip_with mixed_sample (take k (view h t)) (take k (view h s)) ++
        drop k (view h s))).
    + split; [apply heap_le_refl |]. split; [done |].
      by rewrite !take_0, drop_0.
    + intros k [] hk Hk (Hle & Hfr & Hview). rewrite Z.add_0_l.
      assert (slice_ok hk s) as Hs' by (by eapply slice_ok_le).
      assert (slice_ok hk t) as Ht' by (by eapply slice_ok_le).
      destruct (load_spec hk t (Z.of_nat k) Ht') as (v & Hv & Hvk);
        [by apply in_range_nat |].
      destruct (load_spec hk s (Z.of_nat k) Hs') as (v2 & Hv2 & Hv2k);
        [apply in_range_nat; lia |].
      rewrite Nat2Z.id in Hvk, Hv2k.
      rewrite (view_frame h hk t) in Hvk by (apply Hfr; congruence).
      rewrite Hview in Hv2k.
      rewrite lookup_app_r in Hv2k
        by (rewrite length_zip_with, !length_take, !length_view by done;
            lia).
      rewrite length_zip_with, !length_take, !length_view in Hv2k by done.
      rewrite lookup_drop in Hv2k.
      match type of Hv2k with _ !! ?i = _ =>
        replace i with k in Hv2k by lia end.
      apply returns_bind. eapply returns_eq; [exact Hv |].
      apply returns_bind. eapply returns_eq; [exact Hv2 |].
      eapply returns_eq; [apply store_spec, in_range_nat; lia |].
      rewrite Nat2Z.id.
      split.
      { eapply heap_le_trans; [exact Hle |].
        apply heap_le_alter. intros ?. apply length_insert. }
      split.
      { intros q Hq. rewrite list_lookup_alter_ne by done. by apply Hfr. }
      rewrite view_store by (done || lia).
      rewrite Hview. by apply zip_with_step.
  - intros [] h' (Hle & Hfr & Hview). split; [done |]. split; [done |].
    rewrite Hview. do 2 f_equal. apply take_ge. by rewrite length_view.
Qed.

(** What one call of [mix] leaves in the first operand, for operands in
    different arrays: the mixed samples when the second operand fits the
    capacity of the first, and the samples it had otherwise. *)
Lemma mix_effect (s t : slice) (h : heap) :
  slice_ok h s → slice_ok h t → arr s ≠ arr t →
  ∃ h', mix growslice s t h = Return tt h' ∧
    heap_le h h' ∧
    (∀ q, q ≠ arr s → q < length h → h' !! q = h !! q) ∧
    view h' s = mixed_channel (cap s) (view h s) (view h t).
Proof.
  intros Hs Ht Hne.
  pose proof (slice_ok_lt _ _ Hs) as Hs_lt.
  pose proof (slice_ok_lt _ _ Ht) as Ht_lt.
  pose proof Hs as [Hlc _].
  unfold mixed_channel. rewrite (length_view h t Ht).
  assert (returns (mix growslice s t) h (λ _ h',
    heap_le h h' ∧
    (∀ q, q ≠ arr s → q < length h → h' !! q = h !! q) ∧
    view h' s =
      if len t <=? cap s
      then zip_with mixed_sample (view h t) (view h s) ++
           drop (len t) (view h s)
      else view h s)) as Hret.
  { unfold mix. apply returns_bind.
    destruct (Nat.ltb_spec (len s) (len t)) as [Hlt|Hge].
    - (* the first operand is extended *)
      apply returns_bind.
      eapply returns_eq; [apply make_int16_spec; lia |].
      set (d := Z.to_nat (Z.of_nat (len t) - Z.of_nat (len s))).
      assert (len s + d = len t) as Hd by (unfold d; lia).
      set (h1 := h ++ [replicate d 0%Z]). set (z := mkSlice _ _ _ _).
      assert (view h1 z = replicate d 0%Z) as Hz.
      { unfold h1, z. rewrite view_fresh. apply take_ge.
        by rewrite length_replicate. }
      assert (heap_le h h1) as Hle1 by apply heap_le_app.
      assert (slice_ok h1 s) as Hs1 by (by eapply slice_ok_le).
      assert (slice_ok h1 t) as Ht1 by (by eapply slice_ok_le).
      assert (∀ q, q < length h → h1 !! q = h !! q) as Hfr1
        by (intros q Hq; by apply lookup_app_l).
      destruct (append_spec growslice s (replicate d 0%Z) h1 Hs1)
        as (s' & h2 & Happ & Hle2 & Hs2 & Hview2 & Hlen2 & _ & Hfr2).
      rewrite length_replicate in Hlen2.
      eapply returns_eq;
        [unfold append_slice; rewrite Hz; exact Happ |].
      assert (slice_ok h2 t) as Ht2 by (by eapply slice_ok_le).
      assert (length h1 = S (length h)) as Hlh1
        by (unfold h1; rewrite length_app; simpl; lia).
      destruct (Nat.leb_spec (len t) (cap s)) as [Hfit|Hnofit].
      + (* in place *)
        rewrite append_in_place in Happ
          by (rewrite length_replicate; lia).
        injection Happ as <- <-.
        eapply returns_mono.
        { apply mix_loop_spec;
            [done | done | simpl; rewrite length_replicate; lia | done]. }
        intros [] h' (Hle' & Hfr' & Hview'). cbn [arr] in Hfr'.
        split; [eauto using heap_le_trans |]. split.
        { intros q Hq Hql. rewrite (Hfr' q Hq).
          rewrite list_lookup_alter_ne by done. by apply Hfr1. }
        rewrite (view_prefix h' s
                   (mkSlice (arr s) (off s)
                      (len s + length (replicate d 0%Z)) (cap s)))
          by (done || simpl; lia).
        rewrite Hview', Hview2.
        rewrite (view_frame h1 _ t)
          by (rewrite list_lookup_alter_ne by done; done).
        unfold h1. rewrite (view_app_l h _ t Ht), (view_app_l h _ s Hs).
        rewrite (take_ge (view h s ++ _))
          by (rewrite length_app, length_replicate, length_view by done;
              lia).
        rewrite (drop_ge (view h s ++ _))
          by (rewrite length_app, length_replicate, length_view by done;
              lia).
        rewrite app_nil_r, zip_with_take.
        rewrite take_app_length' by (by rewrite length_view).
        rewrite zip_with_take_l' by (rewrite !length_view by done; lia).
        rewrite (drop_ge (view h s)) by (rewrite length_view by done; lia).
        by rewrite app_nil_r.
      + (* a fresh array *)
        destruct (append_realloc s (replicate d 0%Z) h1)
          as (c & a & Happ'); [rewrite length_replicate; lia |].
        rewrite Happ' in Happ. injection Happ as <- <-.
        eapply returns_mono.
        { apply mix_loop_spec;
            [done | done | simpl; rewrite length_replicate; lia |].
          simpl. lia. }
        intros [] h' (Hle' & Hfr' & _). cbn [arr] in Hfr'.
        assert (∀ q, q < length h → h' !! q = h !! q) as Hfr.
        { intros q Hq. rewrite (Hfr' q) by lia.
          rewrite lookup_app_l by lia. by apply Hfr1. }
        split; [eauto using heap_le_trans |].
        split; [intros q _ Hq; by apply Hfr |].
        by apply view_frame, Hfr.
    - (* the first operand is long enough *)
      apply returns_ret. eapply returns_mono.
      { by apply mix_loop_spec. }
      intros [] h' (Hle' & Hfr' & Hview').
      split; [done |]. split; [intros q Hq _; by apply Hfr' |].
      replace (len t <=? cap s) with true
        by (symmetry; apply Nat.leb_le; lia).
      rewrite Hview'. f_equal.
      rewrite <- (length_view h t Ht) at 1. apply zip_with_take_r. }
  apply returns_inv in Hret as ([] & h' & Heq & Hle & Hfr & Hview).
  by exists h'.
Qed.

(** [Mix] channel by channel, for a receiver in pairwise distinct arrays
    that the other clip does not share. *)
Lemma Mix_channels (s t : Clip) (h : heap) :
  length (Samples s) = length (Samples t) →
  chans_ok h (Samples s) →
  Forall (slice_ok h) (Samples t) →
  (∀ u, u ∈ Samples t → arr u ∉ arr <$> Samples s) →
  ∃ h', Mix growslice s t h = Return None h' ∧
    channels h' s =
      zip_with (λ a b, mixed_channel (cap a) (view h a) (view h b))
               (Samples s) (Samples t) ∧
    channels h' t = channels h t.
Proof.
  intros Hlen [Hok Hnd] Ht Hdisj.
  pose (I := λ (k : nat) (_ : unit) (hk : heap),
    heap_le h hk ∧
    (∀ q, q < length h → q ∉ arr <$> Samples s → hk !! q = h !! q) ∧
    ∀ j a b, Samples s !! j = Some a → Samples t !! j = Some b →
      view hk a =
        if decide (j < k) then mixed_channel (cap a) (view h a) (view h b)
        else view h a).
  assert (returns (Mix growslice s t) h
    (λ e h', e = None ∧ I (length (Samples s)) tt h')) as Hret.
  { unfold Mix.
    replace (length (Samples s) =? length (Samples t)) with true
      by (symmetry; by apply Nat.eqb_eq).
    cbn [negb]. apply returns_bind. eapply returns_mono.
    - apply (for_up_inv I); unfold I.
      + split; [apply heap_le_refl |]. split; [done |].
        intros j a b _ _. by rewrite decide_False by lia.
      + intros k [] hk Hk (Hle & Hfr & Hviews). rewrite Z.add_0_l.
        destruct (lookup_lt_is_Some_2 (Samples s) k) as [a Ha]; [lia |].
        destruct (lookup_lt_is_Some_2 (Samples t) k) as [b Hb]; [lia |].
        assert (slice_ok h a) as Ha_ok
          by (eapply Forall_lookup_1; [exact Hok | exact Ha]).
        assert (slice_ok h b) as Hb_ok
          by (eapply Forall_lookup_1; [exact Ht | exact Hb]).
        assert (arr b ∉ arr <$> Samples s) as Hb_arr
          by (by eapply Hdisj, list_elem_of_lookup_2).
        assert (arr a ≠ arr b) as Hab.
        { intros E. apply Hb_arr. rewrite <- E.
          by eapply list_elem_of_fmap_2, list_elem_of_lookup_2. }
        rewrite (chan_spec _ _ _ Ha). apply returns_bind, returns_ret.
        rewrite (chan_spec _ _ _ Hb). apply returns_bind, returns_ret.
        destruct (mix_effect a b hk) as (h' & Hmix & Hle' & Hfr' & Hview');
          [by eapply slice_ok_le | by eapply slice_ok_le | done |].
        eapply returns_eq; [exact Hmix |].
        pose proof (heap_le_length _ _ Hle) as Hlh.
        split; [by eapply heap_le_trans |]. split.
        * intros q Hq Hqs. rewrite <- (Hfr q Hq Hqs). apply Hfr'; [| lia].
          intros ->. apply Hqs.
          by eapply list_elem_of_fmap_2, list_elem_of_lookup_2.
        * intros j u w Hu Hw. destruct (decide (j = k)) as [->|Hjk].
          -- simplify_eq. rewrite decide_True by lia.
             rewrite Hview'.
             rewrite (Hviews k a b Ha Hb), decide_False by lia.
             f_equal. apply view_frame, Hfr; [| done].
             by apply slice_ok_lt.
          -- rewrite (view_frame hk h' u).
             ++ rewrite (Hviews j u w Hu Hw).
                destruct (decide (j < k)).
                ** by rewrite decide_True by lia.
                ** by rewrite decide_False by lia.
             ++ apply Hfr'.
                ** intros E. apply Hjk.
                   eapply (NoDup_lookup (arr <$> Samples s)); [done | |].
                   --- by rewrite list_lookup_fmap, Hu.
                   --- by rewrite list_lookup_fmap, Ha; simpl; rewrite E.
                ** assert (slice_ok h u) as Hu_ok
                     by (eapply Forall_lookup_1; [exact Hok | exact Hu]).
                   apply slice_ok_lt in Hu_ok. lia.
    - intros [] h' Hinv. by apply returns_ret. }
  apply returns_inv in Hret as (e & h' & Heq & -> & Hle & Hfr & Hviews).
  exists h'. split; [done |]. split.
  - unfold channels. apply list_eq. intros j.
    rewrite list_lookup_fmap, lookup_zip_with.
    destruct (Samples s !! j) as [a|] eqn:Ha; [| done]. simpl.
    destruct (lookup_lt_is_Some_2 (Samples t) j) as [b Hb];
      [apply lookup_lt_Some in Ha; lia |].
    rewrite Hb. simpl. f_equal.
    rewrite (Hviews j a b Ha Hb).
    by rewrite decide_True by (by eapply lookup_lt_Some).
  - unfold channels. apply list_fmap_ext. intros j b Hb.
    apply view_frame, Hfr.
    + eapply slice_ok_lt, Forall_lookup_1; [exact Ht | exact Hb].
    + by eapply Hdisj, list_elem_of_lookup_2.
Qed.

(** X9: what [Mix] leaves in its receiver.  For clips with as many channels
    each, the channels of [s] in pairwise distinct arrays and none of them
    shared with a channel of [t], [Mix] returns nil; a channel of [s] whose
    capacity holds the matching channel of [t] gets the mixed samples at
    the positions both have and keeps the rest, a channel of [s] whose
    capacity is smaller keeps all its samples; [t] reads as before. *)
Theorem Mix_effect (s t : Clip) (h : heap) :
  length (Samples s) = length (Samples t) →
  chans_ok h (Samples s) →
  Forall (slice_ok h) (Samples t) →
  (∀ u, u ∈ Samples t → arr u ∉ arr <$> Samples s) →
  ∃ h', Mix growslice s t h = Return None h' ∧
    channels h' s =
      zip_with (λ a b, mixed_channel (cap a) (view h a) (view h b))
               (Samples s) (Samples t) ∧
    channels h' t = channels h t.
Proof. apply Mix_channels. Qed.

Lemma mixed_zero (vs vt : list Z) (c : nat) :
  Forall (λ x, (-32768 ≤ x ≤ 32767)%Z) vs →
  Forall (λ x, x = 0%Z) vt →
  mixed_channel c vs vt = vs.
Proof.
  intros Hvs Hvt. unfold mixed_channel.
  destruct (length vt <=? c); [| done].
  revert vt Hvt. induction Hvs as [|a vs Ha Hvs IH]; intros vt Hvt.
  - by destruct vt.
  - destruct Hvt as [|b vt -> Hvt]; [done |]. simpl.
    rewrite IH by done. f_equal.
    rewrite mixed_sample_saturates by (done || lia). lia.
Qed.

(** X15: mixing with silence changes nothing.  With the channels of [s]
    in pairwise distinct arrays that no channel of [t] shares, all samples
    of [s] within the 16-bit range and all samples of [t] zero, [Mix]
    returns nil and every channel of [s] reads as before, however long the
    channels of [t] are. *)
Theorem Mix_zero (s t : Clip) (h : heap) :
  length (Samples s) = length (Samples t) →
  chans_ok h (Samples s) →
  Forall (slice_ok h) (Samples t) →
  (∀ u, u ∈ Samples t → arr u ∉ arr <$> Samples s) →
  Forall (Forall (λ x, (-32768 ≤ x ≤ 32767)%Z)) (channels h s) →
  Forall (Forall (λ x, x = 0%Z)) (channels h t) →
  ∃ h', Mix growslice s t h = Return None h' ∧
    channels h' s = channels h s.
Proof.
  intros Hlen Hok Ht Hdisj Hrange Hzero.
  destruct (Mix_channels s t h Hlen Hok Ht Hdisj) as (h' & Hmix & Hs & _).
  exists h'. split; [done |]. rewrite Hs.
  unfold channels in *. apply list_eq. intros j.
  rewrite lookup_zip_with, list_lookup_fmap.
  destruct (Samples s !! j) as [a|] eqn:Ha; [| done]. simpl.
  destruct (lookup_lt_is_Some_2 (Samples t) j) as [b Hb];
    [apply lookup_lt_Some in Ha; lia |].
  rewrite Hb. simpl. f_equal. apply mixed_zero.
  - eapply (Forall_lookup_1 _ _ j _ Hrange).
    by rewrite list_lookup_fmap, Ha.
  - eapply (Forall_lookup_1 _ _ j _ Hzero).
    by rewrite list_lookup_fmap, Hb.
Qed.

(** ** The sample that mix stores *)

(** X10: on 16-bit samples the value [mix] stores is the exact sum clamped
    to the 16-bit range, whichever of the two samples comes from which
    operand. *)
Theorem mixed_sample_clamps (a b : Z) :
  (-32768 ≤ a ≤ 32767)%Z → (-32768 ≤ b ≤ 32767)%Z →
  mixed_sample b a = Z.max (-32768) (Z.min 32767 (a + b)) ∧
  mixed_sample a b = mixed_sample b a ∧
  (-32768 ≤ mixed_sample b a ≤ 32767)%Z.
Proof.
  intros Ha Hb.
  rewrite (mixed_sample_saturates a b), (mixed_sample_saturates b a)
    by done.
  rewrite (Z.add_comm b a). split; [done |]. split; [done | lia].
Qed.

(** ** More on the container boundary *)

Lemma prefix_refl (p : string) : String.prefix p p = true.
Proof.
  induction p as [|a p IH]; [done |]. simpl.
  by destruct (Ascii.ascii_dec a a).
Qed.

Lemma strings_Contains_append (s p : string) :
  strings_Contains (s +:+ p) p = true.
Proof.
  induction s as [|a s IH].
  - change ("" +:+ p) with p. destruct p as [|a p]; [done |].
    cbn [strings_Contains]. by rewrite prefix_refl.
  - change (String a s +:+ p) with (String a (s +:+ p)).
    cbn [strings_Contains]. rewrite IH. apply orb_true_r.
Qed.

Lemma interleave_take (chans : list (list Z)) (L : nat) :
  interleave chans L = interleave (take L <$> chans) L.
Proof.
  unfold interleave. f_equal. apply list_fmap_ext.
  intros i o [-> Ho]%lookup_seq. unfold row.
  rewrite <- list_fmap_compose. apply list_fmap_ext. intros j ch _.
  simpl. by rewrite lookup_take_lt by lia.
Qed.

(** X11: the container [NewWaveFromClip] builds from a clip with a first
    channel that no channel is shorter than.  Its identifier always
    contains [.wav]: the name of the clip is used as it is when it contains
    [.wav] and gets [.wav] appended otherwise.  It holds as many samples as
    the clip has channels times the length of the first channel; those at
    the indices congruent to [i] modulo the channel count are the samples
    of channel [i], cut to the length of the first channel.  The store is
    not changed. *)
Theorem NewWaveFromClip_layout (c : Clip) (s0 : slice) (h : heap) :
  Samples c !! 0 = Some s0 →
  Forall (slice_ok h) (Samples c) →
  Forall (λ ch, len s0 ≤ len ch) (Samples c) →
  ∃ w, NewWaveFromClip c h = Return w h ∧
    strings_Contains (wave.FileName w) ".wav" = true ∧
    (strings_Contains (Name c) ".wav" = true → wave.FileName w = Name c) ∧
    (strings_Contains (Name c) ".wav" = false →
     wave.FileName w = Name c +:+ ".wav") ∧
    length (wave.Samples w) = len s0 * length (Samples c) ∧
    ∀ i v, channels h c !! i = Some v →
      samples_mod (length (Samples c)) i (wave.Samples w) =
        take (len s0) v.
Proof.
  intros H0 Hok Hlen. eexists. split; [by apply NewWaveFromClip_spec |].
  cbn [wave.FileName wave.Samples].
  split; [| split; [| split; [| split]]].
  - destruct (strings_Contains (Name c) ".wav") eqn:E; cbn [negb];
      [done | apply strings_Contains_append].
  - by intros ->.
  - by intros ->.
  - rewrite length_interleave. unfold channels. by rewrite length_fmap.
  - intros i v Hv. rewrite interleave_take.
    replace (length (Samples c))
      with (length (take (len s0) <$> channels h c))
      by (unfold channels; by rewrite !length_fmap).
    apply samples_mod_interleave.
    + apply Forall_fmap, Forall_forall. intros u Hu. simpl.
      unfold channels in Hu. apply list_elem_of_fmap in Hu as (ch & -> & Hch).
      rewrite length_take, length_view
        by (by eapply (proj1 (Forall_forall _ _) Hok)).
      pose proof (proj1 (Forall_forall _ _) Hlen ch Hch). simpl in *. lia.
    + by rewrite list_lookup_fmap, Hv.
Qed.

(** X12: how [NewClipFromWave] fails.  An error of [wave.OpenFile] is
    handed on, with a clip without channels and an untouched store.  A
    negative channel count in the header makes [NewClip] panic.  A channel
    count of zero is a division by zero as soon as there is a sample to
    distribute, and yields a clip without channels when there is none. *)
Theorem NewClipFromWave_failures (fname : string) (w : wave.File)
    (e : error) (h : heap) :
  wave_OpenFile fname = (w, e) →
  let n := wave.NumChannels (wave.Header w) in
  let run := NewClipFromWave growslice wave_OpenFile fname h in
  (e ≠ None → run = Return (mkClip [] "" 0, e) h) ∧
  (e = None → (n < 0)%Z → run = Panic MakeLenOutOfRange) ∧
  (e = None → n = 0%Z → wave.Samples w ≠ [] → run = Panic DivideByZero) ∧
  (e = None → n = 0%Z → wave.Samples w = [] →
   run = Return (mkClip [] "" (wave.SampleRate (wave.Header w)), None) h).
Proof.
  intros Hopen n run. unfold run, NewClipFromWave. rewrite Hopen.
  split; [| split; [| split]].
  - by destruct e.
  - intros -> Hn. apply bind_Panic. unfold NewClip. apply bind_Panic.
    unfold make_chans.
    by replace (wave.NumChannels (wave.Header w) <? 0)%Z with true
      by (symmetry; by apply Z.ltb_lt).
  - intros -> Hn Hs. fold n. rewrite Hn.
    destruct (wave.Samples w) as [|x xs]; [done |]. reflexivity.
  - intros -> Hn Hs. fold n. rewrite Hn, Hs. reflexivity.
Qed.

(** X13: what [NewClipFromWave] returns for a container that opened without
    an error and has a channel count [0 < n <= 32767], the positive counts
    its 16-bit header field can hold: a clip of [n] channels, with the
    sample rate of the container and an empty name.  The channels lie in
    pairwise distinct arrays, all of them allocated by the call; channel [i]
    holds the flat samples at the indices congruent to [i] modulo [n], in
    their order; the arrays that existed are untouched. *)
Theorem NewClipFromWave_deinterleaves (fname : string) (w : wave.File)
    (h : heap) :
  wave_OpenFile fname = (w, None) →
  (0 < wave.NumChannels (wave.Header w) ≤ 32767)%Z →
  let N := Z.to_nat (wave.NumChannels (wave.Header w)) in
  ∃ c h',
    NewClipFromWave growslice wave_OpenFile fname h = Return (c, None) h' ∧
    Name c = "" ∧
    SampleRate c = wave.SampleRate (wave.Header w) ∧
    length (Samples c) = N ∧
    chans_ok h' (Samples c) ∧
    (∀ u, u ∈ Samples c → length h ≤ arr u) ∧
    channels h' c = (λ i, samples_mod N i (wave.Samples w)) <$> seq 0 N ∧
    (∀ q, q < length h → h' !! q = h !! q).
Proof.
  intros Hopen Hn N.
  destruct (NewClipFromWave_spec fname w h Hopen)
    as (c & h' & H1 & H2 & H3 & H4 & H5 & H6 & H7 & H8); [lia |].
  by exists c, h'.
Qed.

(** ** Encoding what was decoded *)

Lemma pick_shift n c i (l : list Z) : pick n c (i + n) l = pick n c i l.
Proof.
  revert i. induction l as [|x l IH]; intros i; [done |]. simpl.
  replace (S (i + n)) with (S i + n) by lia. rewrite IH.
  replace ((i + n) `mod` n) with (i `mod` n); [done |].
  replace (i + n) with (i + 1 * n) by lia.
  by rewrite Nat.Div0.mod_add.
Qed.

Lemma samples_mod_block n c (block rest : list Z) x :
  length block = n → block !! c = Some x →
  samples_mod n c (block ++ rest) = x :: samples_mod n c rest.
Proof.
  intros Hn Hc. rewrite !samples_mod_pick, pick_app.
  pose proof (pick_row n c 0 block x Hn Hc) as E. simpl in E.
  rewrite E. simpl. f_equal.
  rewrite Hn. apply (pick_shift n c 0).
Qed.

Lemma interleave_cons {C} (hd : C → Z) (tl : C → list Z) (cs : list C) L :
  interleave ((λ c, hd c :: tl c) <$> cs) (S L) =
  (hd <$> cs) ++ interleave (tl <$> cs) L.
Proof.
  unfold interleave. cbn [seq fmap list_fmap concat]. f_equal.
  - unfold row. rewrite <- list_fmap_compose. by apply list_fmap_ext.
  - f_equal. rewrite <- fmap_S_seq, <- list_fmap_compose.
    apply list_fmap_ext. intros i o _. simpl. unfold row.
    rewrite <- !list_fmap_compose. by apply list_fmap_ext.
Qed.

(** Interleaving the deinterleaved channels of a sequence of [L * n]
    samples gives the sequence back; each channel has [L] samples. *)
Lemma interleave_deinterleave n L (flat : list Z) :
  0 < n → length flat = L * n →
  interleave ((λ c, samples_mod n c flat) <$> seq 0 n) L = flat ∧
  ∀ c, c < n → length (samples_mod n c flat) = L.
Proof.
  intros Hn. revert flat. induction L as [|L IH]; intros flat Hlen.
  - destruct flat; [| done]. split; [done |]. intros c _.
    by rewrite samples_mod_pick.
  - set (block := take n flat). set (rest := drop n flat).
    assert (flat = block ++ rest) as Hflat
      by (unfold block, rest; by rewrite take_drop).
    assert (length block = n) as Hblock
      by (unfold block; rewrite length_take; simpl in Hlen; lia).
    assert (length rest = L * n) as Hrest
      by (unfold rest; rewrite length_drop; simpl in Hlen; lia).
    destruct (IH rest Hrest) as [IH1 IH2].
    assert (∀ c, c < n →
      samples_mod n c flat =
        default 0%Z (block !! c) :: samples_mod n c rest) as Hsm.
    { intros c Hc.
      destruct (lookup_lt_is_Some_2 block c) as [x Hx]; [lia |].
      rewrite Hflat, (samples_mod_block n c block rest x) by done.
      by rewrite Hx. }
    split.
    + transitivity
        (interleave
           ((λ c, default 0%Z (block !! c) :: samples_mod n c rest)
              <$> seq 0 n) (S L)).
      { f_equal. apply list_fmap_ext. intros i c [-> Hc]%lookup_seq.
        by apply Hsm. }
      rewrite interleave_cons, IH1.
      etransitivity; [| symmetry; exact Hflat]. f_equal.
      apply list_eq. intros i. rewrite list_lookup_fmap.
      destruct (decide (i < n)) as [Hi|Hi].
      * rewrite lookup_seq_lt by done. simpl.
        destruct (lookup_lt_is_Some_2 block i) as [x Hx]; [lia |].
        by rewrite Hx.
      * rewrite lookup_seq_ge by lia. symmetry.
        apply lookup_ge_None. lia.
    + intros c Hc. rewrite (Hsm c Hc). simpl. by rewrite IH2.
Qed.

(** X14: decoding a container and encoding the clip again.  For a
    container that opened without an error, whose channel count [n] is
    positive, whose header fields fit [int16] and [int32], and whose number
    of samples is a multiple of [n], [NewWaveFromClip] applied to the clip
    [NewClipFromWave] returns builds a container with the same header and
    the same samples; its identifier is [.wav] whatever the identifier
    was, the name of the decoded clip being empty. *)
Theorem wave_clip_wave (fname : string) (w : wave.File) (L : nat)
    (h : heap) :
  wave_OpenFile fname = (w, None) →
  (0 < wave.NumChannels (wave.Header w) ≤ 32767)%Z →
  (-2147483648 ≤ wave.SampleRate (wave.Header w) ≤ 2147483647)%Z →
  length (wave.Samples w) =
    L * Z.to_nat (wave.NumChannels (wave.Header w)) →
  ∃ c h' w',
    NewClipFromWave growslice wave_OpenFile fname h = Return (c, None) h' ∧
    NewWaveFromClip c h' = Return w' h' ∧
    wave.Header w' = wave.Header w ∧
    wave.Samples w' = wave.Samples w ∧
    wave.FileName w' = ".wav".
Proof.
  intros Hopen Hn Hrate Hlen.
  set (N := Z.to_nat (wave.NumChannels (wave.Header w))) in *.
  destruct (NewClipFromWave_spec fname w h Hopen)
    as (c & h' & Hdec & HName & HRate & HN & [Hok Hnd] & Hch & _); [lia |].
  fold N in HN, Hch.
  destruct (interleave_deinterleave N L (wave.Samples w)) as [Hil Hl];
    [lia | done |].
  assert (∀ j ch, Samples c !! j = Some ch → len ch = L) as Hlens.
  { intros j ch Hj.
    pose proof (lookup_lt_Some _ _ _ Hj) as Hlt.
    pose proof (f_equal (.!! j) Hch) as E. simpl in E. unfold channels in E.
    rewrite !list_lookup_fmap, Hj, lookup_seq_lt in E by lia.
    simpl in E. injection E as E.
    rewrite <- (length_view h' ch)
      by (eapply Forall_lookup_1; [exact Hok | exact Hj]).
    rewrite E. apply Hl. lia. }
  destruct (lookup_lt_is_Some_2 (Samples c) 0) as [s0 H0]; [lia |].
  exists c, h'. eexists. split; [done |]. split.
  { apply (NewWaveFromClip_spec c s0 h' H0 Hok).
    apply Forall_forall. intros ch (j & Hj)%list_elem_of_lookup_1.
    by rewrite (Hlens 0 s0 H0), (Hlens j ch Hj). }
  cbn [wave.Header wave.Samples wave.FileName].
  split; [| split].
  - rewrite HN, HRate. unfold N.
    rewrite Z2Nat.id, wrap16_small, wrap32_small by lia.
    by destruct (wave.Header w).
  - by rewrite Hch, (Hlens 0 s0 H0).
  - by rewrite HName.
Qed.

End Properties.

(** ** The theorems at concrete clips *)

Ltac slice_ok_tac :=
  split; [simpl; lia | eexists; split; [reflexivity | simpl; lia]].

Ltac slices_ok_tac :=
  repeat (constructor; [slice_ok_tac |]); constructor.

(** The scenario of the specification: mixing the stereo clip
    [1; 2; 3; 4] / [10; 20; 30; 40] with a copy of itself doubles every
    sample and leaves the copy as it was. *)
Example Mix_with_copy :
  ∃ h', Mix exact_fit stereo_clip stereo_copy stereo_pair_store =
          Return None h' ∧
    channels h' stereo_clip = [[2; 4; 6; 8]; [20; 40; 60; 80]]%Z ∧
    channels h' stereo_copy = [[1; 2; 3; 4]; [10; 20; 30; 40]]%Z.
Proof. eexists. by repeat split. Qed.

Lemma Mix_keeps_lengths_witness :
  ∃ h', Mix exact_fit short_clip long_clip short_long_store = Return None h' ∧
    Forall (λ ch, slice_ok h' ch ∧
                 length (view h' ch) = length (view short_long_store ch))
           (Samples short_clip).
Proof.
  apply (Mix_keeps_lengths exact_fit short_clip long_clip short_long_store).
  - reflexivity.
  - slices_ok_tac.
  - slices_ok_tac.
Defined.

Lemma Append_extends_target_witness :
  Append exact_fit short_clip empty_clip short_long_store =
    Return (short_clip, ChannelMismatch) short_long_store ∧
  ∃ target' h',
    Append exact_fit short_clip long_clip short_long_store =
      Return (target', None) h' ∧
    channels h' target' =
      zip_with (++) (channels short_long_store short_clip)
                    (channels short_long_store long_clip) ∧
    channels h' long_clip = channels short_long_store long_clip.
Proof.
  split.
  - apply (Append_extends_target exact_fit short_clip empty_clip
             short_long_store).
    simpl. lia.
  - apply (Append_extends_target exact_fit short_clip long_clip
             short_long_store).
    + reflexivity.
    + split; [slices_ok_tac | apply NoDup_singleton].
    + slices_ok_tac.
    + intros u Hu. apply list_elem_of_singleton in Hu. subst u. simpl.
      intros Hin. apply list_elem_of_singleton in Hin. discriminate.
Defined.

(** C6 as stated fails when the two clips share storage.  From the mono
    clip [1; 2; 3; 4], [Slice(0, 2)] and [Slice(1, 3)] give the views
    [1; 2] and [2; 3] on the same array.  Appending the second to the first
    writes behind the first in that array, where the second view reads: the
    target becomes [1; 2; 2; 3] and the source, [2; 3] before the call, is
    [2; 2] after it. *)
Lemma Append_changes_aliased_source :
  ∃ front h1 middle h2 front' h3,
    Slice whole_clip 0 2 whole_store = Return (front, None) h1 ∧
    Slice whole_clip 1 3 h1 = Return (middle, None) h2 ∧
    length (Samples front) = length (Samples middle) ∧
    Append exact_fit front middle h2 = Return (front', None) h3 ∧
    channels h2 front = [[1; 2]]%Z ∧
    channels h2 middle = [[2; 3]]%Z ∧
    channels h3 front' = [[1; 2; 2; 3]]%Z ∧
    channels h3 middle = [[2; 2]]%Z ∧
    channels h3 middle ≠ channels h2 middle.
Proof.
  eexists _, _, _, _, _, _.
  split; [reflexivity |]. split; [reflexivity |]. split; [reflexivity |].
  split; [reflexivity |]. by repeat split.
Qed.

Lemma Split_segments_witness :
  ∃ ts h',
    Split stereo_clip 3 stereo_store = Return (Some <$> ts, None) h' ∧
    length ts = 3 ∧
    concat (channel0 h' <$> ts) =
      take (3 * (4 / 3)) (channel0 stereo_store stereo_clip) ∧
    channel0 stereo_store stereo_clip =
      concat (channel0 h' <$> ts) ++
      drop (3 * (4 / 3)) (channel0 stereo_store stereo_clip) ∧
    length (drop (3 * (4 / 3)) (channel0 stereo_store stereo_clip)) =
      4 `mod` 3 ∧
    channels h' stereo_clip = channels stereo_store stereo_clip.
Proof.
  apply (Split_segments stereo_clip (mkSlice 0 0 4 4) 3 stereo_store).
  - reflexivity.
  - lia.
  - slices_ok_tac.
  - repeat constructor.
Defined.

(** C7 as stated fails on clips that are not rectangular: without a
    channel [Split] aborts on [c.Samples[0]], and with a second channel
    shorter than the first it aborts in [Slice], on a window beyond the
    capacity of that channel. *)
Lemma Split_aborts_on_malformed_clips :
  Split empty_clip 1 [] = Panic IndexOutOfRange ∧
  channels ragged_store ragged_clip = [[1; 2]; []]%Z ∧
  Split ragged_clip 1 ragged_store = Panic SliceBoundsOutOfRange.
Proof. by repeat split. Qed.

Lemma wave_round_trip_witness :
  ∃ w, NewWaveFromClip stereo_clip stereo_store = Return w stereo_store ∧
    ∀ fname h0, opens stereo_wav fname = (w, None) →
      ∃ c' h',
        NewClipFromWave exact_fit (opens stereo_wav) fname h0 =
          Return (c', None) h' ∧
        length (Samples c') = length (Samples stereo_clip) ∧
        channels h' c' = channels stereo_store stereo_clip ∧
        SampleRate c' = SampleRate stereo_clip.
Proof.
  apply (wave_round_trip exact_fit (opens stereo_wav) stereo_clip
           (mkSlice 0 0 4 4) stereo_store).
  - reflexivity.
  - slices_ok_tac.
  - repeat constructor.
  - simpl. lia.
  - simpl. lia.
  - simpl. lia.
Defined.

(** C4 as stated fails outside the range of the header fields.  A sample
    rate of 4294967297 becomes 1 in the [int32] of the header, and the clip
    decoded has the rate 1; a count of 32768 channels becomes -32768 in the
    [int16] of the header, and decoding aborts in [NewClip]. *)
Lemma wave_round_trip_fails_beyond_header :
  (∃ w c' h',
     NewWaveFromClip fast_clip fast_store = Return w fast_store ∧
     NewClipFromWave exact_fit (opens w) "fast.wav" fast_store =
       Return (c', None) h' ∧
     SampleRate fast_clip = 4294967297%Z ∧
     SampleRate c' = 1%Z) ∧
  (∃ w,
     NewWaveFromClip wide_clip wide_store = Return w wide_store ∧
     length (Samples wide_clip) = Z.to_nat 32768 ∧
     wave.NumChannels (wave.Header w) = (-32768)%Z ∧
     NewClipFromWave exact_fit (opens w) "wide.wav" wide_store =
       Panic MakeLenOutOfRange).
Proof.
  split.
  - exists (wave.mkFile "fast.wav" (wave.mkHeader 1 1) [7%Z]).
    eexists _, _. split; [by vm_compute |]. split; [by vm_compute |].
    by split.
  - assert (length (Samples wide_clip) = Z.to_nat 32768) as Hlen
      by (unfold wide_clip; cbn [Samples];
          by rewrite length_fmap, length_seq).
    eexists. split; [| split; [exact Hlen | split]].
    + apply (NewWaveFromClip_spec wide_clip (mkSlice 0 0 1 1)).
      * unfold wide_clip. cbn [Samples].
        rewrite list_lookup_fmap, lookup_seq_lt by lia. done.
      * unfold wide_clip, wide_store. cbn [Samples].
        apply Forall_forall. intros u (i & -> & Hi)%list_elem_of_fmap.
        apply elem_of_seq in Hi. split; [done |]. exists [7%Z].
        split; [apply lookup_replicate_2; cbn [arr]; lia | simpl; lia].
      * unfold wide_clip. cbn [Samples].
        apply Forall_forall. by intros u (i & -> & Hi)%list_elem_of_fmap.
    + cbn [wave.Header wave.NumChannels].
      by rewrite Hlen, Z2Nat.id by lia.
    + eapply NewClipFromWave_negative; [reflexivity |].
      cbn [wave.Header wave.NumChannels].
      by rewrite Hlen, Z2Nat.id by lia.
Qed.

(** ** The further properties at concrete clips *)

Ltac chans_ok_tac :=
  split; [slices_ok_tac | apply (bool_decide_unpack _); vm_compute; exact I].

Ltac apart_tac :=
  apply Forall_forall;
  repeat (apply Forall_cons_2;
          [apply (bool_decide_unpack _); vm_compute; exact I |]);
  apply Forall_nil_2.

Lemma IsEqual_decides_witness :
  ∃ b e, IsEqual stereo_clip stereo_copy stereo_pair_store =
           Return (b, e) stereo_pair_store ∧
    (b = true ↔
     channels stereo_pair_store stereo_clip =
     channels stereo_pair_store stereo_copy) ∧
    (b = true ↔ e = None).
Proof.
  apply (IsEqual_decides stereo_clip stereo_copy stereo_pair_store);
    slices_ok_tac.
Defined.

Lemma Reverse_reverses_witness :
  ∃ h', Reverse stereo_clip stereo_store = Return tt h' ∧
    channels h' stereo_clip = reverse <$> channels stereo_store stereo_clip ∧
    (∀ q, q ∉ arr <$> Samples stereo_clip → h' !! q = stereo_store !! q).
Proof. apply (Reverse_reverses stereo_clip stereo_store). chans_ok_tac. Defined.

Lemma Reverse_twice_witness :
  ∃ h1 h2, Reverse stereo_clip stereo_store = Return tt h1 ∧
    Reverse stereo_clip h1 = Return tt h2 ∧
    channels h2 stereo_clip = channels stereo_store stereo_clip.
Proof. apply (Reverse_twice stereo_clip stereo_store). chans_ok_tac. Defined.

Lemma NewClip_channels_witness :
  NewClip (-1) stereo_store = Panic MakeLenOutOfRange ∧
  ∃ c h', NewClip 2 stereo_store = Return c h' ∧
    channels h' c = replicate (Z.to_nat 2) [] ∧
    Name c = "" ∧ SampleRate c = 0%Z ∧
    chans_ok h' (Samples c) ∧
    (∀ u, u ∈ Samples c → length stereo_store ≤ arr u) ∧
    (∀ q, q < length stereo_store → h' !! q = stereo_store !! q).
Proof.
  split.
  - apply (NewClip_channels (-1) stereo_store). lia.
  - apply (NewClip_channels 2 stereo_store). lia.
Defined.

Lemma Slice_is_view_witness :
  ∃ t h', Slice stereo_clip 1 7 stereo_store = Return (t, None) h' ∧
    Name t = "" ∧ SampleRate t = 0%Z ∧
    ∀ h2, heap_le h' h2 →
      channels h2 t =
        (λ v, take (Z.to_nat (Z.min 7 (Z.of_nat 4)) - Z.to_nat 1)
                (drop (Z.to_nat 1) v)) <$> channels h2 stereo_clip.
Proof.
  apply (Slice_is_view stereo_clip (mkSlice 0 0 4 4) 1 7 stereo_store).
  - reflexivity.
  - slices_ok_tac.
  - repeat constructor.
  - simpl. lia.
Defined.

Lemma Slice_bad_start_panics_witness :
  Slice stereo_clip 5 7 stereo_store = Panic SliceBoundsOutOfRange.
Proof.
  apply (Slice_bad_start_panics stereo_clip (mkSlice 0 0 4 4) 5 7
           stereo_store).
  - reflexivity.
  - simpl. lia.
Defined.

Lemma Split_divisions_witness :
  ∃ ts h', Split stereo_clip 3 stereo_store = Return (Some <$> ts, None) h' ∧
    length ts = Z.to_nat 3 ∧
    ∀ i t, ts !! i = Some t →
      Name t = "" ∧ SampleRate t = 0%Z ∧
      channels h' t =
        (λ v, take (4 / Z.to_nat 3) (drop (4 / Z.to_nat 3 * i) v))
          <$> channels stereo_store stereo_clip.
Proof.
  apply (Split_divisions stereo_clip (mkSlice 0 0 4 4) 3 stereo_store).
  - reflexivity.
  - lia.
  - slices_ok_tac.
  - repeat constructor.
Defined.

Lemma Append_self_witness :
  ∃ c' h', Append exact_fit stereo_clip stereo_clip stereo_store =
             Return (c', None) h' ∧
    Name c' = Name stereo_clip ∧ SampleRate c' = SampleRate stereo_clip ∧
    channels h' c' = (λ v, v ++ v) <$> channels stereo_store stereo_clip.
Proof.
  apply (Append_self exact_fit stereo_clip stereo_store). chans_ok_tac.
Defined.

Lemma Mix_effect_witness :
  ∃ h', Mix exact_fit stereo_clip silent_clip stereo_silence_store =
          Return None h' ∧
    channels h' stereo_clip =
      zip_with (λ a b, mixed_channel (cap a)
                         (view stereo_silence_store a)
                         (view stereo_silence_store b))
               (Samples stereo_clip) (Samples silent_clip) ∧
    channels h' silent_clip = channels stereo_silence_store silent_clip.
Proof.
  apply (Mix_effect exact_fit stereo_clip silent_clip stereo_silence_store).
  - reflexivity.
  - chans_ok_tac.
  - slices_ok_tac.
  - apart_tac.
Defined.

Lemma mixed_sample_clamps_witness :
  mixed_sample 1 32767 = Z.max (-32768) (Z.min 32767 (32767 + 1)) ∧
  mixed_sample 32767 1 = mixed_sample 1 32767 ∧
  (-32768 ≤ mixed_sample 1 32767 ≤ 32767)%Z.
Proof. apply (mixed_sample_clamps 32767 1); lia. Defined.

Lemma NewWaveFromClip_layout_witness :
  ∃ w, NewWaveFromClip stereo_clip stereo_store = Return w stereo_store ∧
    strings_Contains (wave.FileName w) ".wav" = true ∧
    (strings_Contains (Name stereo_clip) ".wav" = true →
     wave.FileName w = Name stereo_clip) ∧
    (strings_Contains (Name stereo_clip) ".wav" = false →
     wave.FileName w = Name stereo_clip +:+ ".wav") ∧
    length (wave.Samples w) = 4 * length (Samples stereo_clip) ∧
    ∀ i v, channels stereo_store stereo_clip !! i = Some v →
      samples_mod (length (Samples stereo_clip)) i (wave.Samples w) =
        take 4 v.
Proof.
  apply (NewWaveFromClip_layout stereo_clip (mkSlice 0 0 4 4) stereo_store).
  - reflexivity.
  - slices_ok_tac.
  - repeat constructor.
Defined.

Lemma NewClipFromWave_failures_witness :
  NewClipFromWave exact_fit fails "x.wav" stereo_store =
    Return (mkClip [] "" 0, errors_New "no such file") stereo_store ∧
  NewClipFromWave exact_fit (opens no_channels_wav) "none.wav"
    stereo_store = Panic DivideByZero.
Proof.
  split.
  - apply (proj1 (NewClipFromWave_failures exact_fit fails "x.wav"
                    (wave.NewFile "") (errors_New "no such file")
                    stereo_store eq_refl)).
    discriminate.
  - apply (proj1 (proj2 (proj2
             (NewClipFromWave_failures exact_fit (opens no_channels_wav)
                "none.wav" no_channels_wav None stereo_store eq_refl))));
      [reflexivity | reflexivity | discriminate].
Defined.

Lemma NewClipFromWave_deinterleaves_witness :
  ∃ c h',
    NewClipFromWave exact_fit (opens stereo_wav) "stereo.wav" stereo_store =
      Return (c, None) h' ∧
    Name c = "" ∧
    SampleRate c = 8%Z ∧
    length (Samples c) = Z.to_nat 2 ∧
    chans_ok h' (Samples c) ∧
    (∀ u, u ∈ Samples c → length stereo_store ≤ arr u) ∧
    channels h' c =
      (λ i, samples_mod (Z.to_nat 2) i (wave.Samples stereo_wav))
        <$> seq 0 (Z.to_nat 2) ∧
    (∀ q, q < length stereo_store → h' !! q = stereo_store !! q).
Proof.
  apply (NewClipFromWave_deinterleaves exact_fit (opens stereo_wav)
           "stereo.wav" stereo_wav stereo_store).
  - reflexivity.
  - simpl. lia.
Defined.

Lemma wave_clip_wave_witness :
  ∃ c h' w',
    NewClipFromWave exact_fit (opens stereo_wav) "stereo.wav" stereo_store =
      Return (c, None) h' ∧
    NewWaveFromClip c h' = Return w' h' ∧
    wave.Header w' = wave.Header stereo_wav ∧
    wave.Samples w' = wave.Samples stereo_wav ∧
    wave.FileName w' = ".wav".
Proof.
  apply (wave_clip_wave exact_fit (opens stereo_wav) "stereo.wav"
           stereo_wav 4 stereo_store).
  - reflexivity.
  - simpl. lia.
  - simpl. lia.
  - reflexivity.
Defined.

Lemma Mix_zero_witness :
  ∃ h', Mix exact_fit stereo_clip silent_clip stereo_silence_store =
          Return None h' ∧
    channels h' stereo_clip = channels stereo_silence_store stereo_clip.
Proof.
  apply (Mix_zero exact_fit stereo_clip silent_clip stereo_silence_store).
  - reflexivity.
  - chans_ok_tac.
  - slices_ok_tac.
  - apart_tac.
  - repeat (constructor; try lia).
  - repeat (constructor; try reflexivity).
Defined.
